(** * The execution context of the command-line framework (context.go)

    A shallow embedding of [context.go]: the [Context] struct, its
    constructor [newContext], its accessors and its output helpers, followed
    by the properties of that code.

    Go pointers to [Context] are addresses in a heap, because the methods
    mutate the receiver ([Writer] stores the writer it creates) and return
    the receiver itself for chaining.  A panic (a nil dereference or the
    assertion of [FormValues]) is an explicit outcome.  Calls that leave the
    file - the argument parser, the [Write] of a writer, the assertion
    helper - are recorded in a trace, so that what was written and
    whether the parser ran are observable. *)

From Stdlib Require Import ZArith Lia Ascii String.
From stdpp Require Import base option list strings gmap.

Local Open Scope string_scope.

(** ** Values that come from outside the file *)

(** The types of the collaborators: [iface] are the non-nil values of Go's
    [interface{}], [Color] is [color.Color], [Command] the command node,
    and the two HTTP types the request and response of [net/http]. *)
Class Externals := {
  iface : Type;
  Color : Type;
  Command : Type;
  http_Request : Type;
  http_ResponseWriter : Type
}.

(** A Go [interface{}]: nil, or a value. *)
Definition any `{Externals} : Type := option iface.

(** A Go [error] value (never nil; the nil error is [None] below), known by
    the text of its [Error()] method. *)
Record error := errorString { Error : string }.

(** The part of the parser's [flag] that the context reads. *)
Record flag := mkFlag { fl_actual : string }.

(** The parser state [flagSet], with the four fields the context reads:
    [err], [args], [flagMap] and [values] (a [url.Values]). *)
Record flagSet := mkFlagSet {
  fs_err : option error;
  fs_args : list string;
  fs_flagMap : gmap string flag;
  fs_values : gmap string (list string)
}.

(** An [io.Writer]: a value returned by [colorable.NewColorableStdout]
    (numbered by the call that made it) or any other writer. *)
Inductive io_Writer :=
  | ColorableStdout (k : nat)
  | OtherWriter (id : nat).

Global Instance io_Writer_eq_dec : EqDecision io_Writer.
Proof. solve_decision. Defined.

(** ** The Context struct *)

Record Context `{Externals} := mkContext {
  ctx_router : list string;
  ctx_path : string;
  ctx_argv : any;
  ctx_nativeArgs : list string;
  ctx_flagSet : option flagSet;           (* *flagSet, nil is None *)
  ctx_command : option Command;           (* *Command *)
  ctx_writer : option io_Writer;          (* io.Writer, nil until set *)
  ctx_color : Color;
  ctx_HTTPRequest : option http_Request;
  ctx_HTTPResponse : option http_ResponseWriter
}.

(** ** Worlds, outcomes and the monad of the methods *)

(** An address of a [Context] in the heap. *)
Definition loc := positive.

(** The calls that leave the file. *)
Inductive event `{Externals} :=
  | CallParseArgv (args : list string) (argv : iface) (clr : Color)
  | CallWrite (w : io_Writer) (data : string)
  | CallPanicf (msg : string).

(** The world: the allocated contexts, the number of colorable writers
    made so far, and the trace of outside calls, most recent first. *)
Record World `{Externals} := mkWorld {
  heap : gmap loc Context;
  colorables : nat;
  trace : list event
}.

Inductive failure :=
  | NilDereference
  | Fatal (msg : string).

Inductive outcome (A : Type) :=
  | Returns (a : A)
  | Panics (f : failure).
Arguments Returns {A} a.
Arguments Panics {A} f.

Definition M `{Externals} (A : Type) : Type := World -> outcome (A * World).

Definition ret `{Externals} {A} (a : A) : M A := fun σ => Returns (a, σ).

Definition bind `{Externals} {A B} (m : M A) (k : A -> M B) : M B :=
  fun σ =>
    match m σ with
    | Returns (a, σ') => k a σ'
    | Panics f => Panics f
    end.

Definition panic `{Externals} {A} (f : failure) : M A := fun _ => Panics f.

Declare Scope go_scope.
Delimit Scope go_scope with go.
Notation "x <- c ;; k" := (bind c (fun x => k))
  (at level 100, c at next level, right associativity) : go_scope.
Notation "c ;; k" := (bind c (fun _ => k))
  (at level 100, right associativity) : go_scope.
Local Open Scope go_scope.

Section Heap.
Context {E : Externals}.

(** [&Context{...}]: a fresh address. *)
Definition alloc (c : Context) : M loc :=
  fun σ =>
    let l := fresh (dom (heap σ)) in
    Returns (l, mkWorld _ (<[l := c]> (heap σ)) (colorables σ) (trace σ)).

(** Reading through a [*Context]; an address that holds no context
    behaves as the nil pointer. *)
Definition load (l : loc) : M Context :=
  fun σ =>
    match heap σ !! l with
    | Some c => Returns (c, σ)
    | None => Panics NilDereference
    end.

(** Assigning to fields of [*l]. *)
Definition store (l : loc) (f : Context -> Context) : M unit :=
  fun σ =>
    match heap σ !! l with
    | Some c => Returns (tt, mkWorld _ (<[l := f c]> (heap σ)) (colorables σ) (trace σ))
    | None => Panics NilDereference
    end.

Definition emit (e : event) : M unit :=
  fun σ => Returns (tt, mkWorld _ (heap σ) (colorables σ) (e :: trace σ)).

(** The answer of a call that touches no context. *)
Definition lift {A} (o : outcome A) : M A :=
  fun σ =>
    match o with
    | Returns a => Returns (a, σ)
    | Panics f => Panics f
    end.

(** Dereferencing a [*flagSet]. *)
Definition deref {A} (p : option A) : M A :=
  match p with
  | Some a => ret a
  | None => panic NilDereference
  end.
End Heap.

(** ** fmt.Fprintf called with a format and no operand

    [JSON], [JSONIndent], [JSONln] and [WriteUsage] hand their text to
    [fmt.Fprintf] as the format, with an empty operand list.  The scan of
    the format by the fmt package ([doPrintf]) is followed here for that
    case: [len(a)] is 0 and [argNum] stays 0, so every verb but [%%] finds
    no operand.  Strings are byte strings, indices count bytes. *)
Module fmt.
Local Open Scope nat_scope.

Definition percentBangString := "%!".
Definition missingString := "(MISSING)".
Definition badIndexString := "(BADINDEX)".
Definition noVerbString := "%!(NOVERB)".
Definition badWidthString := "%!(BADWIDTH)".
Definition badPrecString := "%!(BADPREC)".

Definition byte (c : ascii) : N := N_of_ascii c.

Definition is_percent (c : ascii) : bool := (byte c =? 37)%N.
Definition is_digit (c : ascii) : bool := (48 <=? byte c)%N && (byte c <=? 57)%N.
(** The flags ['#'], ['0'], ['+'], ['-'] and [' ']. *)
Definition is_flag (c : ascii) : bool :=
  let b := byte c in
  (b =? 35)%N || (b =? 48)%N || (b =? 43)%N || (b =? 45)%N || (b =? 32)%N.

(** [format[i:]]. *)
Fixpoint from (i : nat) (s : string) : string :=
  match i, s with
  | O, _ => s
  | S i', String _ s' => from i' s'
  | S _, EmptyString => EmptyString
  end.

(** The number of leading bytes of [s] that satisfy [p]. *)
Fixpoint span (p : ascii -> bool) (s : string) : nat :=
  match s with
  | String c s' => if p c then S (span p s') else 0
  | EmptyString => 0
  end.

(** [tooLarge]: the bound on a width or precision. *)
Definition tooLarge (x : Z) : bool := (1000000 <? x)%Z || (x <? -1000000)%Z.

(** The loop of [parsenum] over at most [n] bytes of [s]: the number read,
    whether a digit was seen, and how many bytes were read; [None] when
    the number grows too large. *)
Fixpoint digits (n : nat) (s : string) (num : Z) (isnum : bool) : option (Z * bool * nat) :=
  match n, s with
  | S n', String c s' =>
      if is_digit c then
        if tooLarge num then None
        else
          match digits n' s' (num * 10 + (Z.of_N (byte c) - 48))%Z true with
          | Some (r, b, k) => Some (r, b, S k)
          | None => None
          end
      else Some (num, isnum, 0)
  | _, _ => Some (num, isnum, 0)
  end.

(** [parsenum(s, start, end)] returns [(num, isnum, newi)]. *)
Definition parsenum (s : string) (start end_ : nat) : Z * bool * nat :=
  if end_ <=? start then (0%Z, false, end_)
  else
    match digits (end_ - start) (from start s) 0%Z false with
    | Some (num, isnum, k) => (num, isnum, start + k)
    | None => (0%Z, false, end_)
    end.

Definition is_close_bracket (c : ascii) : bool := (byte c =? 93)%N.
Definition is_open_bracket (c : ascii) : bool := (byte c =? 91)%N.

(** [parseArgNumber(format)], with [format[0]] the opening bracket:
    [(index, wid, ok)]. *)
Definition parseArgNumber (format : string) : Z * nat * bool :=
  if String.length format <? 3 then (0%Z, 1, false)
  else
    let i := S (span (fun c => negb (is_close_bracket c)) (from 1 format)) in
    if i <? String.length format then
      let '(width, ok, newi) := parsenum format 1 i in
      if negb ok || negb (newi =? i) then (0%Z, S i, false)
      else ((width - 1)%Z, S i, true)
    else (0%Z, 1, false).

(** [p.argNumber(argNum, format, i, numArgs)] for [numArgs = 0]: the new
    index, whether a bracketed index was found, and [p.goodArgNum]
    afterwards ([good] is its value before).  No index is below
    [numArgs], so a bracket always clears [goodArgNum] and [argNum] is
    kept. *)
Definition argNumber (format : string) (i : nat) (good : bool) : nat * bool * bool :=
  match String.get i format with
  | Some c =>
      if is_open_bracket c then
        let '(index, wid, ok) := parseArgNumber (from i format) in
        (i + wid, ok, false)
      else (i, false, good)
  | None => (i, false, good)
  end.

Definition is_star (s : string) (i : nat) : bool :=
  match String.get i s with Some c => (byte c =? 42)%N | None => false end.
Definition is_dot (s : string) (i : nat) : bool :=
  match String.get i s with Some c => (byte c =? 46)%N | None => false end.

Definition in_range (lo hi : N) (o : option ascii) : bool :=
  match o with Some c => (lo <=? byte c)%N && (byte c <=? hi)%N | None => false end.

Definition runeError : string :=
  String (ascii_of_N 239) (String (ascii_of_N 191) (String (ascii_of_N 189) EmptyString)).

(** [utf8.DecodeRuneInString(format[i:])] followed by [writeRune]: the
    bytes written for the verb and the size of the verb in the format.
    A well-formed encoding is written back as it is; anything else is one
    byte, written as U+FFFD. *)
Definition decodeVerb (format : string) (i : nat) : string * nat :=
  match String.get i format with
  | None => (runeError, 0)
  | Some c0 =>
      let b0 := byte c0 in
      let s1 := String.get (i + 1) format in
      let s2 := String.get (i + 2) format in
      let s3 := String.get (i + 3) format in
      let cont := in_range 128 191 in
      let size :=
        if (b0 <? 128)%N then 1
        else if (b0 <? 194)%N then 0
        else if (b0 <? 224)%N then (if cont s1 then 2 else 0)
        else if (b0 =? 224)%N then (if in_range 160 191 s1 && cont s2 then 3 else 0)
        else if (b0 =? 237)%N then (if in_range 128 159 s1 && cont s2 then 3 else 0)
        else if (b0 <? 240)%N then (if cont s1 && cont s2 then 3 else 0)
        else if (b0 =? 240)%N then (if in_range 144 191 s1 && cont s2 && cont s3 then 4 else 0)
        else if (b0 <? 244)%N then (if cont s1 && cont s2 && cont s3 then 4 else 0)
        else if (b0 =? 244)%N then (if in_range 128 143 s1 && cont s2 && cont s3 then 4 else 0)
        else 0 in
      match size with
      | 0 => (runeError, 1)
      | _ => (substring i size format, size)
      end
  end.

(** One verb, from the byte after its ['%'] at index [i]: the text
    written and the index after the verb. *)
Definition verb (format : string) (i : nat) : string * nat :=
  let end_ := String.length format in
  (* flags *)
  let i := i + span is_flag (from i format) in
  (* explicit argument index *)
  let '(i, afterIndex, good) := argNumber format i true in
  (* width *)
  let '(out, i, afterIndex, good) :=
    if (i <? end_) && is_star format i then
      (badWidthString, S i, false, good)
    else
      let '(_, widPresent, i) := parsenum format i end_ in
      ("", i, afterIndex, if afterIndex && widPresent then false else good) in
  (* precision *)
  let '(out, i, afterIndex, good) :=
    if (i + 1 <=? end_) && is_dot format i then
      let i := S i in
      let good := if afterIndex then false else good in
      let '(i, afterIndex, good) := argNumber format i good in
      if (i <? end_) && is_star format i then
        (out ++ badPrecString, S i, false, good)
      else
        let '(_, _, i) := parsenum format i end_ in
        (out, i, afterIndex, good)
    else (out, i, afterIndex, good) in
  let '(i, afterIndex, good) :=
    if afterIndex then (i, afterIndex, good) else argNumber format i good in
  if end_ <=? i then (out ++ noVerbString, i)
  else
    let '(v, size) := decodeVerb format i in
    let i := i + size in
    if String.eqb v "%" then (out ++ "%", i)
    else if negb good then (out ++ percentBangString ++ v ++ badIndexString, i)
    else (out ++ percentBangString ++ v ++ missingString, i).

(** The [formatLoop] of [doPrintf], from index [i]; every round passes a
    ['%'], so [fuel] rounds are enough when [fuel] exceeds the bytes
    left. *)
Fixpoint formatLoop (fuel : nat) (format : string) (i : nat) : string :=
  match fuel with
  | O => ""
  | S fuel' =>
      let lasti := i in
      let i := i + span (fun c => negb (is_percent c)) (from i format) in
      let text := substring lasti (i - lasti) format in
      if String.length format <=? i then text
      else
        let '(out, i) := verb format (S i) in
        text ++ out ++ formatLoop fuel' format i
  end.

(** Whether no byte of [s] is ['%']. *)
Fixpoint no_percent (s : string) : bool :=
  match s with
  | EmptyString => true
  | String c s' => negb (is_percent c) && no_percent s'
  end.

(** The text [Fprintf(w, format)] hands to [w.Write]. *)
Definition Sprintf0 (format : string) : string :=
  formatLoop (S (String.length format)) format 0.

End fmt.

(** ** The collaborators *)

(** The functions the file calls and does not define: the parser of the
    native arguments ([parseArgv] returns a [*flagSet]), the usage renderer
    of the command node (called on a possibly nil [*Command]; it may
    panic), the assertion helper [debug.Panicf] (it panics, or returns when
    assertions are off), the two encoders of [encoding/json] (the data, or
    the error), the rendering of a format that comes with operands, and
    what the [Write] of a writer answers. *)
Class Collaborators `{Externals} := {
  parseArgv : list string -> iface -> Color -> option flagSet;
  Command_Usage : option Command -> Context -> outcome string;
  debug_Panicf : string -> outcome unit;
  json_Marshal : any -> string + error;
  json_MarshalIndent : any -> string -> string -> string + error;
  fmt_operands : string -> list any -> string;
  writer_Write : io_Writer -> string -> Z * option error
}.

(** Modelled from the spec: [newFlagSet] is not in context.go; the spec
    calls its result an empty parser state that is never absent, so it is
    the address of a state with no error, no free argument, no flag and no
    value. *)
Definition newFlagSet : option flagSet :=
  Some (mkFlagSet None [] ∅ ∅).

Definition newline : string := String (ascii_of_N 10) EmptyString.

Section Methods.
Context {E : Externals} {C : Collaborators}.

Definition set_flagSet (fs : option flagSet) (c : Context) : Context :=
  mkContext _ (ctx_router c) (ctx_path c) (ctx_argv c) (ctx_nativeArgs c) fs
    (ctx_command c) (ctx_writer c) (ctx_color c)
    (ctx_HTTPRequest c) (ctx_HTTPResponse c).

Definition set_writer (w : option io_Writer) (c : Context) : Context :=
  mkContext _ (ctx_router c) (ctx_path c) (ctx_argv c) (ctx_nativeArgs c)
    (ctx_flagSet c) (ctx_command c) w (ctx_color c)
    (ctx_HTTPRequest c) (ctx_HTTPResponse c).

Definition set_color (clr : Color) (c : Context) : Context :=
  mkContext _ (ctx_router c) (ctx_path c) (ctx_argv c) (ctx_nativeArgs c)
    (ctx_flagSet c) (ctx_command c) (ctx_writer c) clr
    (ctx_HTTPRequest c) (ctx_HTTPResponse c).

(** The call [parseArgv(args, argv, clr)]. *)
Definition call_parseArgv (args : list string) (argv : iface) (clr : Color)
  : M (option flagSet) :=
  emit (CallParseArgv args argv clr) ;;
  ret (parseArgv args argv clr).

(** The call [w.Write(data)]. *)
Definition call_Write (w : io_Writer) (data : string) : M (Z * option error) :=
  emit (CallWrite w data) ;;
  ret (writer_Write w data).

(** The call [debug.Panicf(msg)]. *)
Definition call_Panicf (msg : string) : M unit :=
  emit (CallPanicf msg) ;;
  lift (debug_Panicf msg).

(** [colorable.NewColorableStdout()]. *)
Definition NewColorableStdout : M io_Writer :=
  fun σ =>
    Returns (ColorableStdout (colorables σ),
             mkWorld _ (heap σ) (S (colorables σ)) (trace σ)).

(** [fmt.Sprintf(format, a...)]. *)
Definition Sprintf (format : string) (a : list any) : string :=
  match a with
  | [] => fmt.Sprintf0 format
  | _ => fmt_operands format a
  end.

(** [fmt.Fprintf(w, format, a...)]: one call of [w.Write]. *)
Definition Fprintf (w : io_Writer) (format : string) (a : list any)
  : M (Z * option error) :=
  call_Write w (Sprintf format a).

Definition newContext (path : string) (router args : list string) (argv : any)
    (clr : Color) : M (option loc * option error) :=
  ctx <- alloc (mkContext _ router path argv args newFlagSet None None clr None None) ;;
  match argv with
  | Some a =>
      c <- load ctx ;;
      fs <- call_parseArgv args a (ctx_color c) ;;
      store ctx (set_flagSet fs) ;;
      c <- load ctx ;;
      fs <- deref (ctx_flagSet c) ;;
      match fs_err fs with
      | Some e => ret (None, Some e)
      | None => ret (Some ctx, None)
      end
  | None => ret (Some ctx, None)
  end.

Definition Path (ctx : loc) : M string :=
  c <- load ctx ;; ret (ctx_path c).

Definition Router (ctx : loc) : M (list string) :=
  c <- load ctx ;; ret (ctx_router c).

Definition NativeArgs (ctx : loc) : M (list string) :=
  c <- load ctx ;; ret (ctx_nativeArgs c).

Definition Args (ctx : loc) : M (list string) :=
  c <- load ctx ;;
  fs <- deref (ctx_flagSet c) ;;
  ret (fs_args fs).

Definition NArg (ctx : loc) : M Z :=
  c <- load ctx ;;
  fs <- deref (ctx_flagSet c) ;;
  ret (Z.of_nat (length (fs_args fs))).

Definition Argv (ctx : loc) : M any :=
  c <- load ctx ;; ret (ctx_argv c).

Definition IsSet (ctx : loc) (flag : string) : M bool :=
  c <- load ctx ;;
  fs <- deref (ctx_flagSet c) ;;
  match fs_flagMap fs !! flag with
  | None => ret false
  | Some fl => ret (negb (String.eqb (fl_actual fl) ""))
  end.

Definition FormValues (ctx : loc) : M (gmap string (list string)) :=
  c <- load ctx ;;
  match ctx_flagSet c with
  | None => call_Panicf "ctx.flagSet == nil"
  | Some _ => ret tt
  end ;;
  c <- load ctx ;;
  fs <- deref (ctx_flagSet c) ;;
  ret (fs_values fs).

Definition Command_ (ctx : loc) : M (option Command) :=
  c <- load ctx ;; ret (ctx_command c).

Definition Usage (ctx : loc) : M string :=
  c <- load ctx ;;
  lift (Command_Usage (ctx_command c) c).

Definition Writer (ctx : loc) : M io_Writer :=
  c <- load ctx ;;
  match ctx_writer c with
  | None =>
      w <- NewColorableStdout ;;
      store ctx (set_writer (Some w)) ;;
      ret w
  | Some w => ret w
  end.

Definition Write (ctx : loc) (data : string) : M (Z * option error) :=
  w <- Writer ctx ;;
  call_Write w data.

(** [Color] returns [&ctx.color]: the address of a field of [*ctx], named
    here by the address of the context. *)
Definition Color_ (ctx : loc) : M loc :=
  load ctx ;; ret ctx.

Definition String_ (ctx : loc) (format : string) (args : list any) : M loc :=
  w <- Writer ctx ;;
  Fprintf w format args ;;
  ret ctx.

Definition WriteUsage (ctx : loc) : M unit :=
  u <- Usage ctx ;;
  String_ ctx u [] ;;
  ret tt.

Definition JSON (ctx : loc) (obj : any) : M loc :=
  match json_Marshal obj with
  | inl data =>
      w <- Writer ctx ;;
      Fprintf w data [] ;;
      ret ctx
  | inr _ => ret ctx
  end.

Definition JSONln (ctx : loc) (obj : any) : M loc :=
  c <- JSON ctx obj ;;
  String_ c newline [].

Definition JSONIndent (ctx : loc) (obj : any) (prefix indent : string) : M loc :=
  match json_MarshalIndent obj prefix indent with
  | inl data =>
      w <- Writer ctx ;;
      Fprintf w data [] ;;
      ret ctx
  | inr _ => ret ctx
  end.

Definition JSONIndentln (ctx : loc) (obj : any) (prefix indent : string) : M loc :=
  c <- JSONIndent ctx obj prefix indent ;;
  String_ c newline [].

End Methods.

(** ** The life of a context *)

(** The methods of [*Context], with their arguments. *)
Inductive method `{Externals} :=
  | mPath | mRouter | mNativeArgs | mArgs | mNArg | mArgv
  | mIsSet (flag : string)
  | mFormValues | mCommand | mUsage | mWriteUsage | mWriter
  | mWrite (data : string)
  | mColor
  | mString (format : string) (args : list any)
  | mJSON (obj : any)
  | mJSONln (obj : any)
  | mJSONIndent (obj : any) (prefix indent : string)
  | mJSONIndentln (obj : any) (prefix indent : string).

(** What happens to contexts between construction and the end of the
    handler: a method is called on some context, another context is
    constructed, or the handler assigns through the pointer that [Color]
    returned. *)
Inductive step `{Externals} :=
  | Invoke (ctx : loc) (m : method)
  | Construct (path : string) (router args : list string) (argv : any) (clr : Color)
  | AssignColor (ctx : loc) (clr : Color).

Section Life.
Context {E : Externals} {C : Collaborators}.

Definition discard {A} (m : M A) : M unit := m ;; ret tt.

Definition invoke (ctx : loc) (m : method) : M unit :=
  match m with
  | mPath => discard (Path ctx)
  | mRouter => discard (Router ctx)
  | mNativeArgs => discard (NativeArgs ctx)
  | mArgs => discard (Args ctx)
  | mNArg => discard (NArg ctx)
  | mArgv => discard (Argv ctx)
  | mIsSet flag => discard (IsSet ctx flag)
  | mFormValues => discard (FormValues ctx)
  | mCommand => discard (Command_ ctx)
  | mUsage => discard (Usage ctx)
  | mWriteUsage => WriteUsage ctx
  | mWriter => discard (Writer ctx)
  | mWrite data => discard (Write ctx data)
  | mColor => discard (Color_ ctx)
  | mString format args => discard (String_ ctx format args)
  | mJSON obj => discard (JSON ctx obj)
  | mJSONln obj => discard (JSONln ctx obj)
  | mJSONIndent obj prefix indent => discard (JSONIndent ctx obj prefix indent)
  | mJSONIndentln obj prefix indent => discard (JSONIndentln ctx obj prefix indent)
  end.

Definition do_step (s : step) : M unit :=
  match s with
  | Invoke ctx m => invoke ctx m
  | Construct path router args argv clr =>
      discard (newContext path router args argv clr)
  | AssignColor ctx clr => store ctx (set_color clr)
  end.

Fixpoint run (steps : list step) : M unit :=
  match steps with
  | [] => ret tt
  | s :: steps' => do_step s ;; run steps'
  end.

(** The bytes handed to writer [w], in the order of the calls, by a trace
    (most recent call first). *)
Fixpoint written (w : io_Writer) (t : list event) : string :=
  match t with
  | [] => ""
  | CallWrite w' data :: t' =>
      written w t' ++ (if decide (w' = w) then data else "")
  | _ :: t' => written w t'
  end.

(** The writer that [Writer] returns on context [c] in world [σ]: the one
    stored, or else the next colorable writer. *)
Definition the_writer (c : Context) (σ : World) : io_Writer :=
  match ctx_writer c with
  | Some w => w
  | None => ColorableStdout (colorables σ)
  end.

(** The world after [Writer] ran on the context [c] at address [l]. *)
Definition after_Writer (l : loc) (c : Context) (σ : World) : World :=
  match ctx_writer c with
  | Some _ => σ
  | None =>
      mkWorld _ (<[l := set_writer (Some (ColorableStdout (colorables σ))) c]> (heap σ))
        (S (colorables σ)) (trace σ)
  end.

(** The world with more outside calls on its trace. *)
Definition extend (new : list event) (σ : World) : World :=
  mkWorld _ (heap σ) (colorables σ) (new ++ trace σ).

Definition is_write_to (w : io_Writer) (e : event) : Prop :=
  exists data, e = CallWrite w data.

(** [c'] is [c] later in its life: the fields set at construction are
    the same, and a writer that was stored is still the stored one. *)
Definition keeps (c c' : Context) : Prop :=
  ctx_router c' = ctx_router c
  /\ ctx_path c' = ctx_path c
  /\ ctx_argv c' = ctx_argv c
  /\ ctx_nativeArgs c' = ctx_nativeArgs c
  /\ ctx_flagSet c' = ctx_flagSet c
  /\ ctx_command c' = ctx_command c
  /\ (forall w, ctx_writer c = Some w -> ctx_writer c' = Some w).

(** [σ'] is a later world than [σ]: every context of [σ] is still there,
    later in its life. *)
Definition evolves (σ σ' : World) : Prop :=
  forall l c, heap σ !! l = Some c ->
    exists c', heap σ' !! l = Some c' /\ keeps c c'.

(** The methods that only read: all but [Writer], [Write], [WriteUsage],
    [String] and the JSON family. *)
Definition read_only (m : method) : bool :=
  match m with
  | mPath | mRouter | mNativeArgs | mArgs | mNArg | mArgv | mIsSet _
  | mFormValues | mCommand | mUsage | mColor => true
  | _ => false
  end.

End Life.

(** ** A sample choice of collaborators

    One choice of the outside types and functions, on which the methods run
    by computation.  The statements about the code quantify over every
    choice; this one serves to run them on concrete inputs. *)
Module Sample.

Definition dquote : string := String (ascii_of_N 34) EmptyString.

(** The bytes that [encoding/json] copies into a JSON string as they
    are: printable ASCII but the double quote, the backslash and the
    three bytes escaped for HTML (ampersand, less-than, greater-than). *)
Definition plain_byte (c : ascii) : bool :=
  let b := N_of_ascii c in
  (32 <=? b)%N && (b <=? 126)%N &&
  negb ((b =? 34)%N || (b =? 92)%N || (b =? 38)%N || (b =? 60)%N || (b =? 62)%N).

Fixpoint all_plain (s : string) : bool :=
  match s with
  | EmptyString => true
  | String c s' => plain_byte c && all_plain s'
  end.

(** A Go string made of such bytes only. *)
Record plain := mkPlain { text : string; text_plain : Is_true (all_plain text) }.

(** A few Go values: nil is [None : any]; the others are a plain string,
    a boolean, a pointer to a struct without fields (the destination of a
    command that declares no flag) and a channel (which [encoding/json]
    refuses). *)
Inductive value :=
  | GoString (s : plain)
  | GoBool (b : bool)
  | GoEmptyStruct
  | GoChan.

#[export] Instance externals : Externals := {|
  iface := value;
  Color := bool;
  Command := string;
  http_Request := unit;
  http_ResponseWriter := unit
|}.

(** [json.Marshal] on these values. *)
Definition Marshal (v : any) : string + error :=
  match v with
  | None => inl "null"
  | Some (GoString s) => inl (dquote ++ text s ++ dquote)
  | Some (GoBool true) => inl "true"
  | Some (GoBool false) => inl "false"
  | Some GoEmptyStruct => inl "{}"
  | Some GoChan => inr (errorString "json: unsupported type: chan int")
  end.

(** [json.MarshalIndent] on these values: none of them has elements to
    put on lines of their own. *)
Definition MarshalIndent (v : any) (prefix indent : string) : string + error :=
  Marshal v.

Definition is_dash (c : ascii) : bool := (N_of_ascii c =? 45)%N.

Definition is_flag_token (tok : string) : bool :=
  match tok with
  | String c _ => is_dash c
  | EmptyString => false
  end.

(** A stand-in for the parser: a token that starts with a dash is a flag
    recorded under its own text, any other token is a free argument, and
    the lone dash is refused. *)
Definition parse (args : list string) (argv : value) (clr : bool) : option flagSet :=
  if bool_decide ("-" ∈ args) then
    Some (mkFlagSet (Some (errorString "undefined flag -")) [] ∅ ∅)
  else
    Some (mkFlagSet None
            (filter (fun tok => is_flag_token tok = false) args)
            (list_to_map ((fun tok => (tok, mkFlag tok)) <$>
                            filter (fun tok => is_flag_token tok = true) args))
            ∅).

(** Stand-ins for the usage renderer, for the rendering of operands
    (none of the runs below formats an operand) and for a writer that
    takes every byte; the assertion helper panics with its message. *)
#[export] Instance collaborators : Collaborators := {|
  parseArgv := parse;
  Command_Usage := fun _ _ => Returns "usage";
  debug_Panicf := fun msg => Panics (Fatal msg);
  json_Marshal := Marshal;
  json_MarshalIndent := MarshalIndent;
  fmt_operands := fun format _ => format;
  writer_Write := fun _ data => (Z.of_nat (String.length data), None)
|}.

(** The values of the runs, at the types of the collaborators. *)
Definition dest : iface := GoEmptyStruct.
Definition colored : Color := true.
Definition plain_output : Color := false.
Definition no_argv : any := None.
Definition a_channel : any := Some GoChan.
Definition a_true : any := Some (GoBool true).
Definition fifty_percent : any := Some (GoString (mkPlain "50%" I)).

(** The world before anything was allocated. *)
Definition world0 : World := mkWorld _ ∅ 0 [].

(** The parser state of [app hello world -a=1 abc xyz], where the flag
    [-a] was given a value and the flag [-b] was not. *)
Definition hello_flags : flagSet :=
  mkFlagSet None ["abc"; "xyz"]
    (<["-a" := mkFlag "1"]> (<["-b" := mkFlag ""]> ∅)) ∅.

(** The context of that invocation, as dispatch leaves it. *)
Definition hello : Context :=
  mkContext _ ["hello"; "world"] "hello world" (Some dest) ["-a=1"; "abc"; "xyz"]
    (Some hello_flags) None None colored None None.

Definition world1 : World := mkWorld _ {[ 1%positive := hello ]} 0 [].

(** The parser state of a refused command line. *)
Definition refused : flagSet :=
  mkFlagSet (Some (errorString "undefined flag -")) [] ∅ ∅.

(** The parser state of [-a x]. *)
Definition accepted : flagSet :=
  mkFlagSet None ["x"] (<["-a" := mkFlag "-a"]> ∅) ∅.

(** The zero value of [Context], which has no parser state, and a world
    that holds it. *)
Definition zero_context : Context :=
  mkContext _ [] "" no_argv [] None None None plain_output None None.

Definition world_zero : World := mkWorld _ {[ 1%positive := zero_context ]} 0 [].

(** Three calls on the context at address 1. *)
Definition own_steps : list step :=
  [ Invoke 1%positive (mJSON a_true);
    Invoke 1%positive (mString "abc" []);
    Invoke 1%positive mPath ].

(** A stretch of the life of the context at address 1. *)
Definition some_steps : list step :=
  [ Invoke 1%positive (mJSONln a_true);
    Construct "x" ["x"] [] no_argv plain_output;
    AssignColor 1%positive plain_output;
    Invoke 1%positive mWriteUsage ].

(** The world after [newContext] ran for [app hello world -a], and the
    world after the steps above ran from there. *)
Definition world_built : World :=
  match newContext "hello world" ["hello"; "world"] ["-a"] (Some dest) colored world0 with
  | Returns (_, σ) => σ
  | Panics _ => world0
  end.

Definition world_later : World :=
  match run some_steps world_built with
  | Returns (_, σ) => σ
  | Panics _ => world_built
  end.

End Sample.

(** * Properties *)

(** ** Running the monad *)

Section Monad_facts.
Context {E : Externals}.

Lemma bind_returns {A B} (m : M A) (k : A -> M B) σ a σ' :
  m σ = Returns (a, σ') -> bind m k σ = k a σ'.
Proof. unfold bind. intros ->. reflexivity. Qed.

Lemma bind_panics {A B} (m : M A) (k : A -> M B) σ f :
  m σ = Panics f -> bind m k σ = Panics f.
Proof. unfold bind. intros ->. reflexivity. Qed.

(** A computation that returns was made of parts that returned. *)
Lemma bind_inv {A B} (m : M A) (k : A -> M B) σ b σ'' :
  bind m k σ = Returns (b, σ'') ->
  exists a σ', m σ = Returns (a, σ') /\ k a σ' = Returns (b, σ'').
Proof.
  unfold bind. destruct (m σ) as [[a σ']|f]; [|discriminate].
  intros Hk. exists a, σ'. split; [reflexivity | exact Hk].
Qed.

Lemma load_allocated l c σ :
  heap σ !! l = Some c -> load l σ = Returns (c, σ).
Proof. unfold load. intros ->. reflexivity. Qed.

(** The address that [alloc] picks holds no context yet. *)
Lemma alloc_fresh (σ : World) :
  heap σ !! fresh (dom (heap σ)) = None.
Proof. apply not_elem_of_dom. apply is_fresh. Qed.

End Monad_facts.

(** ** Construction *)

Section Construction.
Context {E : Externals} {C : Collaborators}.

(** [newContext] with a destination, by the answer of the parser. *)
Lemma newContext_parsed path router args (a : iface) clr σ fs :
  parseArgv args a clr = Some fs ->
  let l := fresh (dom (heap σ)) in
  let c := mkContext _ router path (Some a) args (Some fs) None None clr None None in
  let σ' := mkWorld _ (<[l := c]> (heap σ)) (colorables σ)
              (CallParseArgv args a clr :: trace σ) in
  newContext path router args (Some a) clr σ =
    match fs_err fs with
    | Some e => Returns ((None, Some e), σ')
    | None => Returns ((Some l, None), σ')
    end.
Proof.
  intros Hp. unfold newContext, bind, alloc, load, call_parseArgv, emit, ret,
    store, deref, bind, panic.
  repeat first [ rewrite lookup_insert_eq | rewrite insert_insert_eq
               | rewrite Hp | progress simpl ].
  destruct (fs_err fs); reflexivity.
Qed.

(** A parser that answers the nil pointer makes [newContext] panic at
    [ctx.flagSet.err]. *)
Lemma newContext_nil_flagSet path router args (a : iface) clr σ :
  parseArgv args a clr = None ->
  newContext path router args (Some a) clr σ = Panics NilDereference.
Proof.
  intros Hp. unfold newContext, bind, alloc, load, call_parseArgv, emit, ret,
    store, deref, bind, panic.
  repeat first [ rewrite lookup_insert_eq | rewrite insert_insert_eq
               | rewrite Hp | progress simpl ].
  reflexivity.
Qed.

(** [newContext] without a destination. *)
Lemma newContext_absent path router args clr σ :
  let l := fresh (dom (heap σ)) in
  let c := mkContext _ router path None args newFlagSet None None clr None None in
  newContext path router args None clr σ =
    Returns ((Some l, None),
             mkWorld _ (<[l := c]> (heap σ)) (colorables σ) (trace σ)).
Proof. reflexivity. Qed.

End Construction.

Section Construction_claims.
Context {E : Externals} {C : Collaborators}.

(** C1. When [argv] is present and the parser answers a state [fs]: if
    [fs] carries an error, [newContext] returns no context and that very
    error (so its text is the parser's text); if it carries none,
    [newContext] returns a context with every field initialized from the
    arguments and with [fs] as its parser state.  In both cases the
    parser was called once, on the native arguments, [argv] and the
    color. *)
Theorem newContext_present_argv path router args (a : iface) clr σ fs :
  parseArgv args a clr = Some fs ->
  (forall e, fs_err fs = Some e ->
     exists σ',
       newContext path router args (Some a) clr σ = Returns ((None, Some e), σ')
       /\ Some (Error e) = Error <$> fs_err fs
       /\ trace σ' = CallParseArgv args a clr :: trace σ)
  /\ (fs_err fs = None ->
     exists l σ',
       newContext path router args (Some a) clr σ = Returns ((Some l, None), σ')
       /\ heap σ' !! l =
            Some (mkContext _ router path (Some a) args (Some fs)
                    None None clr None None)
       /\ trace σ' = CallParseArgv args a clr :: trace σ).
Proof.
  intros Hp. pose proof (newContext_parsed path router args a clr σ fs Hp) as Hn.
  simpl in Hn. split.
  - intros e He. rewrite He in Hn. eexists. split; [exact Hn|].
    rewrite He. split; reflexivity.
  - intros He. rewrite He in Hn. eexists _, _. split; [exact Hn|].
    simpl. rewrite lookup_insert_eq. split; reflexivity.
Qed.

(** C7. With an absent [argv], [newContext] always returns a context and
    no error, the trace of outside calls is unchanged (the parser was not
    called), the parser state of the context is present and [Args] on it
    returns the empty list. *)
Theorem newContext_absent_argv path router args clr σ :
  exists l σ' c fs,
    newContext path router args None clr σ = Returns ((Some l, None), σ')
    /\ trace σ' = trace σ
    /\ heap σ' !! l = Some c
    /\ ctx_flagSet c = Some fs
    /\ Args l σ' = Returns ([], σ').
Proof.
  eexists _, _, _, _. rewrite newContext_absent.
  split; [reflexivity|]. split; [reflexivity|]. simpl.
  split; [apply lookup_insert_eq|]. split; [reflexivity|].
  unfold Args. erewrite bind_returns by (apply load_allocated; apply lookup_insert_eq).
  reflexivity.
Qed.

End Construction_claims.

(** ** Accessors *)

Section Accessors.
Context {E : Externals} {C : Collaborators}.

(** C8. [NArg] is the length of what [Args] returns, and panics exactly
    when [Args] does. *)
Theorem NArg_length_Args ctx σ :
  NArg ctx σ =
    match Args ctx σ with
    | Returns (a, σ') => Returns (Z.of_nat (length a), σ')
    | Panics f => Panics f
    end.
Proof.
  unfold NArg, Args, bind, load, deref, ret, panic.
  destruct (heap σ !! ctx) as [c|]; [|reflexivity].
  destruct (ctx_flagSet c); reflexivity.
Qed.

(** C2. On a context whose parser state is [fs], [IsSet name] returns,
    changes nothing, and its answer is true exactly when [name] is in the
    flag table of [fs] with a non-empty actual value; so it is false for
    an unknown name and for a flag whose actual value is empty. *)
Theorem IsSet_iff ctx c fs name σ :
  heap σ !! ctx = Some c ->
  ctx_flagSet c = Some fs ->
  exists b,
    IsSet ctx name σ = Returns (b, σ)
    /\ (b = true <->
          exists fl, fs_flagMap fs !! name = Some fl /\ fl_actual fl <> "")
    /\ (fs_flagMap fs !! name = None -> b = false)
    /\ (forall fl, fs_flagMap fs !! name = Some fl -> fl_actual fl = "" -> b = false).
Proof.
  intros Hc Hfs. unfold IsSet.
  rewrite (bind_returns _ _ _ _ _ (load_allocated _ _ _ Hc)).
  rewrite Hfs. unfold bind, deref, ret.
  destruct (fs_flagMap fs !! name) as [fl|] eqn:Hfl.
  - eexists. split; [reflexivity|]. split; [|split].
    + rewrite negb_true_iff. split.
      * intros Hne. exists fl. split; [reflexivity|].
        intros Heq. rewrite Heq in Hne. discriminate.
      * intros (fl' & [= <-] & Hne).
        destruct (String.eqb_spec (fl_actual fl) ""); [contradiction|reflexivity].
    + discriminate.
    + intros fl' [= <-] ->. reflexivity.
  - exists false. split; [reflexivity|]. split; [|split].
    + split; [discriminate|]. intros (fl & Hfl' & _). discriminate.
    + reflexivity.
    + reflexivity.
Qed.

End Accessors.

(** ** The scan of a format without operands *)

Module fmt_facts.
Import fmt.
Local Open Scope nat_scope.

Lemma length_from i s : String.length (from i s) = String.length s - i.
Proof.
  revert s. induction i as [|i IH]; intros s; simpl.
  - lia.
  - destruct s as [|c s]; simpl; [reflexivity | apply IH].
Qed.

Lemma span_le p s : span p s <= String.length s.
Proof. induction s as [|c s IH]; simpl; [lia | destruct (p c); simpl; lia]. Qed.

Lemma span_from_le p i s :
  i <= String.length s -> i + span p (from i s) <= String.length s.
Proof.
  intros Hi. pose proof (span_le p (from i s)) as Hs.
  rewrite length_from in Hs. lia.
Qed.

Lemma get_lt i s c : String.get i s = Some c -> i < String.length s.
Proof.
  revert i. induction s as [|c' s IH]; intros i; simpl; [discriminate|].
  destruct i as [|i]; [lia|]. intros Hg. apply IH in Hg. lia.
Qed.

Lemma get_none_ge i s : String.get i s = None -> String.length s <= i.
Proof.
  revert i. induction s as [|c' s IH]; intros i; simpl; [lia|].
  destruct i as [|i]; [discriminate|]. intros Hg. apply IH in Hg. lia.
Qed.

Lemma get_in_range_lt lo hi i s :
  in_range lo hi (String.get i s) = true -> i < String.length s.
Proof.
  destruct (String.get i s) as [c|] eqn:Hg; [|discriminate].
  intros _. eapply get_lt, Hg.
Qed.

Lemma digits_le n s num isnum r b k :
  digits n s num isnum = Some (r, b, k) -> k <= n.
Proof.
  revert s num isnum r b k.
  induction n as [|n IH]; intros s num isnum r b k; simpl.
  - destruct s; intros [= _ _ <-]; lia.
  - destruct s as [|c s]; [intros [= _ _ <-]; lia|].
    destruct (is_digit c); [|intros [= _ _ <-]; lia].
    destruct (tooLarge num); [discriminate|].
    destruct (digits n s _ true) as [[[r' b'] k']|] eqn:Hd; [|discriminate].
    intros [= _ _ <-]. apply IH in Hd. lia.
Qed.

(** [parsenum] moves forward and stays within [end]. *)
Lemma parsenum_bounds s start end_ num isnum newi :
  start <= end_ ->
  parsenum s start end_ = (num, isnum, newi) ->
  start <= newi <= end_.
Proof.
  intros Hle. unfold parsenum.
  destruct (Nat.leb_spec end_ start); [intros [= _ _ <-]; lia|].
  destruct (digits _ _ _ _) as [[[r b] k]|] eqn:Hd.
  - intros [= _ _ <-]. apply digits_le in Hd. lia.
  - intros [= _ _ <-]. lia.
Qed.

Lemma parseArgNumber_wid format index wid ok :
  1 <= String.length format ->
  parseArgNumber format = (index, wid, ok) ->
  wid <= String.length format.
Proof.
  intros Hlen. unfold parseArgNumber.
  destruct (Nat.ltb_spec (String.length format) 3); [intros [= _ <- _]; lia|].
  generalize (span (fun c => negb (is_close_bracket c)) (from 1 format)).
  intros k. simpl.
  destruct (Nat.ltb_spec (S k) (String.length format)); [|intros [= _ <- _]; lia].
  destruct (parsenum format 1 _) as [[width ok'] newi].
  destruct (negb ok' || negb (newi =? _)); intros [= _ <- _]; lia.
Qed.

(** [argNumber] moves forward and stays within the format. *)
Lemma argNumber_bounds format i good i' found good' :
  i <= String.length format ->
  argNumber format i good = (i', found, good') ->
  i <= i' <= String.length format.
Proof.
  intros Hi. unfold argNumber.
  destruct (String.get i format) as [c|] eqn:Hg; [|intros [= <- _ _]; lia].
  destruct (is_open_bracket c); [|intros [= <- _ _]; lia].
  destruct (parseArgNumber (from i format)) as [[index wid] ok] eqn:Hp.
  intros [= <- _ _]. apply get_lt in Hg.
  apply parseArgNumber_wid in Hp; rewrite length_from in *; lia.
Qed.

Lemma decodeVerb_bounds format i v size :
  i < String.length format ->
  decodeVerb format i = (v, size) ->
  1 <= size /\ i + size <= String.length format.
Proof.
  intros Hi. unfold decodeVerb.
  destruct (String.get i format) as [c0|] eqn:Hg.
  2:{ apply get_none_ge in Hg. lia. }
  cbv zeta. intros Hd.
  repeat case_match; simplify_eq;
    repeat match goal with
    | Hb : (_ && _) = true |- _ => apply andb_true_iff in Hb; destruct Hb
    | Hb : in_range _ _ _ = true |- _ => apply get_in_range_lt in Hb
    end; lia.
Qed.

(** A verb ends after its ['%'] and within the format. *)
Lemma verb_bounds format j out j' :
  j <= String.length format ->
  verb format j = (out, j') ->
  j <= j' <= String.length format.
Proof.
  intros Hj. unfold verb.
  pose proof (span_from_le is_flag j format Hj) as Hflags.
  pose proof (Nat.le_add_r j (span is_flag (from j format))) as Hfwd.
  revert Hflags Hfwd. generalize (j + span is_flag (from j format)).
  intros i0 Hi0 Hji0.
  cbv zeta. intros Hv.
  repeat case_match; simplify_eq;
    repeat match goal with
    | Hb : (_ && _) = true |- _ => apply andb_true_iff in Hb; destruct Hb
    | Hb : (_ <? _) = true |- _ => apply Nat.ltb_lt in Hb
    | Hb : (_ <=? _) = false |- _ => apply Nat.leb_gt in Hb
    | Hb : (_ <=? _) = true |- _ => apply Nat.leb_le in Hb
    | Hb : argNumber _ _ _ = _ |- _ => apply argNumber_bounds in Hb; [|lia]
    | Hb : parsenum _ _ _ = _ |- _ => apply parsenum_bounds in Hb; [|lia]
    | Hb : decodeVerb _ _ = _ |- _ => apply decodeVerb_bounds in Hb; [|lia]
    end; lia.
Qed.

(** More fuel than the bytes left changes nothing: the fuel of
    [Sprintf0] never runs out. *)
Lemma formatLoop_fuel format n m i :
  i <= String.length format ->
  String.length format - i < n -> String.length format - i < m ->
  formatLoop n format i = formatLoop m format i.
Proof.
  revert m i. induction n as [|n IH]; intros m i Hi Hn Hm; [lia|].
  destruct m as [|m]; [lia|]. simpl.
  pose proof (span_from_le (fun c => negb (is_percent c)) i format Hi) as Hs.
  pose proof (Nat.le_add_r i (span (fun c => negb (is_percent c)) (from i format)))
    as Hfwd.
  revert Hs Hfwd.
  generalize (i + span (fun c => negb (is_percent c)) (from i format)).
  intros i1 Hi1 Hii1.
  destruct (Nat.leb_spec (String.length format) i1); [reflexivity|].
  destruct (verb format (S i1)) as [out i2] eqn:Hv.
  apply verb_bounds in Hv; [|lia].
  rewrite (IH m i2); [reflexivity| lia | lia | lia].
Qed.

Lemma span_no_percent s :
  no_percent s = true -> span (fun c => negb (is_percent c)) s = String.length s.
Proof.
  induction s as [|c s IH]; simpl; [reflexivity|].
  intros [Hc Hs]%andb_true_iff. rewrite Hc, IH; [reflexivity | exact Hs].
Qed.

Lemma substring_all s : substring 0 (String.length s) s = s.
Proof. induction s as [|c s IH]; simpl; [reflexivity | rewrite IH; reflexivity]. Qed.

(** A format without ['%'] is written as it is. *)
Lemma Sprintf0_no_percent s : no_percent s = true -> Sprintf0 s = s.
Proof.
  intros Hs. unfold Sprintf0. simpl.
  rewrite (span_no_percent s Hs), Nat.sub_0_r, Nat.leb_refl.
  apply substring_all.
Qed.

(** Anything with more fuel is [Sprintf0]. *)
Lemma formatLoop_Sprintf0 format n :
  String.length format < n -> formatLoop n format 0 = Sprintf0 format.
Proof. intros Hn. apply formatLoop_fuel; lia. Qed.

End fmt_facts.

(** ** The writer and the output helpers *)

Section Output.
Context {E : Externals} {C : Collaborators}.

Lemma the_writer_stored c w σ : ctx_writer c = Some w -> the_writer c σ = w.
Proof. unfold the_writer. intros ->. reflexivity. Qed.

Lemma after_Writer_stored l c w σ :
  ctx_writer c = Some w -> after_Writer l c σ = σ.
Proof. unfold after_Writer. intros ->. reflexivity. Qed.

Lemma Writer_allocated l c σ :
  heap σ !! l = Some c ->
  Writer l σ = Returns (the_writer c σ, after_Writer l c σ).
Proof.
  intros Hc. unfold Writer. rewrite (bind_returns _ _ _ _ _ (load_allocated _ _ _ Hc)).
  unfold the_writer, after_Writer.
  destruct (ctx_writer c) as [w|]; [reflexivity|].
  unfold bind, NewColorableStdout, store, ret. simpl. rewrite Hc. reflexivity.
Qed.

(** After [Writer], the context holds the writer that was returned. *)
Lemma after_Writer_lookup l c σ :
  heap σ !! l = Some c ->
  exists c', heap (after_Writer l c σ) !! l = Some c'
             /\ ctx_writer c' = Some (the_writer c σ) /\ keeps c c'.
Proof.
  intros Hc. unfold after_Writer, the_writer.
  destruct (ctx_writer c) as [w|] eqn:Hw.
  - exists c. rewrite Hw. unfold keeps. tauto.
  - eexists. simpl. rewrite lookup_insert_eq. split; [reflexivity|].
    split; [reflexivity|]. unfold keeps. simpl. rewrite Hw.
    repeat split; discriminate.
Qed.

(** Once the writer is stored, [Writer] returns it and changes nothing. *)
Lemma Writer_stored l c w σ :
  heap σ !! l = Some c -> ctx_writer c = Some w ->
  Writer l σ = Returns (w, σ).
Proof.
  intros Hc Hw. rewrite (Writer_allocated l c σ Hc).
  rewrite (the_writer_stored c w σ Hw), (after_Writer_stored l c w σ Hw).
  reflexivity.
Qed.

Lemma Write_allocated l c σ data :
  heap σ !! l = Some c ->
  Write l data σ =
    Returns (writer_Write (the_writer c σ) data,
             extend [CallWrite (the_writer c σ) data] (after_Writer l c σ)).
Proof.
  intros Hc. unfold Write. rewrite (bind_returns _ _ _ _ _ (Writer_allocated _ _ _ Hc)).
  reflexivity.
Qed.

Lemma String_allocated l c σ format a :
  heap σ !! l = Some c ->
  String_ l format a σ =
    Returns (l, extend [CallWrite (the_writer c σ) (Sprintf format a)]
                  (after_Writer l c σ)).
Proof.
  intros Hc. unfold String_.
  rewrite (bind_returns _ _ _ _ _ (Writer_allocated _ _ _ Hc)).
  reflexivity.
Qed.

(** A second write on the same context goes to the same writer. *)
Lemma String_again l c σ new format a :
  heap σ !! l = Some c ->
  String_ l format a (extend new (after_Writer l c σ)) =
    Returns (l, extend (CallWrite (the_writer c σ) (Sprintf format a) :: new)
                  (after_Writer l c σ)).
Proof.
  intros Hc. destruct (after_Writer_lookup l c σ Hc) as (c' & Hc' & Hw & _).
  assert (Hc'' : heap (extend new (after_Writer l c σ)) !! l = Some c') by exact Hc'.
  rewrite (String_allocated l c' _ format a Hc'').
  rewrite (the_writer_stored c' _ _ Hw), (after_Writer_stored l c' _ _ Hw).
  reflexivity.
Qed.

Lemma JSON_encoded l c σ obj data :
  heap σ !! l = Some c -> json_Marshal obj = inl data ->
  JSON l obj σ =
    Returns (l, extend [CallWrite (the_writer c σ) (fmt.Sprintf0 data)]
                  (after_Writer l c σ)).
Proof.
  intros Hc Hm. unfold JSON. rewrite Hm.
  rewrite (bind_returns _ _ _ _ _ (Writer_allocated _ _ _ Hc)).
  reflexivity.
Qed.

Lemma JSON_failed l σ obj e :
  json_Marshal obj = inr e -> JSON l obj σ = Returns (l, σ).
Proof. intros Hm. unfold JSON. rewrite Hm. reflexivity. Qed.

Lemma JSONIndent_encoded l c σ obj prefix indent data :
  heap σ !! l = Some c -> json_MarshalIndent obj prefix indent = inl data ->
  JSONIndent l obj prefix indent σ =
    Returns (l, extend [CallWrite (the_writer c σ) (fmt.Sprintf0 data)]
                  (after_Writer l c σ)).
Proof.
  intros Hc Hm. unfold JSONIndent. rewrite Hm.
  rewrite (bind_returns _ _ _ _ _ (Writer_allocated _ _ _ Hc)).
  reflexivity.
Qed.

Lemma JSONIndent_failed l σ obj prefix indent e :
  json_MarshalIndent obj prefix indent = inr e ->
  JSONIndent l obj prefix indent σ = Returns (l, σ).
Proof. intros Hm. unfold JSONIndent. rewrite Hm. reflexivity. Qed.

Lemma JSONln_encoded l c σ obj data :
  heap σ !! l = Some c -> json_Marshal obj = inl data ->
  JSONln l obj σ =
    Returns (l, extend [CallWrite (the_writer c σ) newline;
                        CallWrite (the_writer c σ) (fmt.Sprintf0 data)]
                  (after_Writer l c σ)).
Proof.
  intros Hc Hm. unfold JSONln.
  rewrite (bind_returns _ _ _ _ _ (JSON_encoded _ _ _ _ _ Hc Hm)).
  apply String_again, Hc.
Qed.

Lemma JSONln_failed l c σ obj e :
  heap σ !! l = Some c -> json_Marshal obj = inr e ->
  JSONln l obj σ =
    Returns (l, extend [CallWrite (the_writer c σ) newline] (after_Writer l c σ)).
Proof.
  intros Hc Hm. unfold JSONln.
  rewrite (bind_returns _ _ _ _ _ (JSON_failed _ _ _ _ Hm)).
  apply String_allocated, Hc.
Qed.

Lemma JSONIndentln_encoded l c σ obj prefix indent data :
  heap σ !! l = Some c -> json_MarshalIndent obj prefix indent = inl data ->
  JSONIndentln l obj prefix indent σ =
    Returns (l, extend [CallWrite (the_writer c σ) newline;
                        CallWrite (the_writer c σ) (fmt.Sprintf0 data)]
                  (after_Writer l c σ)).
Proof.
  intros Hc Hm. unfold JSONIndentln.
  rewrite (bind_returns _ _ _ _ _ (JSONIndent_encoded _ _ _ _ _ _ _ Hc Hm)).
  apply String_again, Hc.
Qed.

Lemma JSONIndentln_failed l c σ obj prefix indent e :
  heap σ !! l = Some c -> json_MarshalIndent obj prefix indent = inr e ->
  JSONIndentln l obj prefix indent σ =
    Returns (l, extend [CallWrite (the_writer c σ) newline] (after_Writer l c σ)).
Proof.
  intros Hc Hm. unfold JSONIndentln.
  rewrite (bind_returns _ _ _ _ _ (JSONIndent_failed _ _ _ _ _ _ Hm)).
  apply String_allocated, Hc.
Qed.

End Output.

Lemma string_app_nil_r (s : string) : s ++ "" = s.
Proof. induction s as [|c s IH]; [reflexivity | exact (f_equal (String c) IH)]. Qed.

Lemma string_app_assoc (s t u : string) : (s ++ t) ++ u = s ++ (t ++ u).
Proof. induction s as [|c s IH]; [reflexivity | exact (f_equal (String c) IH)]. Qed.

Section Output_claims.
Context {E : Externals} {C : Collaborators}.

Lemma written_extend w new σ :
  written w (trace (extend new σ)) = written w (trace σ) ++ written w new.
Proof.
  unfold extend. simpl. induction new as [|e new IH]; simpl.
  - symmetry. apply string_app_nil_r.
  - destruct e as [args argv clr|w' data|msg]; [exact IH| |exact IH].
    rewrite IH. apply string_app_assoc.
Qed.

Lemma written_write w data (t : list event) :
  written w (CallWrite w data :: t) = written w t ++ data.
Proof. simpl. rewrite decide_True by reflexivity. reflexivity. Qed.

Lemma written_after_Writer w l c σ :
  written w (trace (after_Writer l c σ)) = written w (trace σ).
Proof. unfold after_Writer. destruct (ctx_writer c); reflexivity. Qed.

(** What [JSON] and [JSONln] hand to the writer when the value encodes to
    [data]: the text that [Fprintf] makes of [data] taken as a format,
    then for [JSONln] a newline. *)
Lemma JSON_written ctx c obj data σ :
  heap σ !! ctx = Some c -> json_Marshal obj = inl data ->
  let w := the_writer c σ in
  (exists σ', JSON ctx obj σ = Returns (ctx, σ')
              /\ written w (trace σ') = written w (trace σ) ++ fmt.Sprintf0 data)
  /\ (exists σ', JSONln ctx obj σ = Returns (ctx, σ')
              /\ written w (trace σ') =
                   written w (trace σ) ++ fmt.Sprintf0 data ++ newline).
Proof.
  intros Hc Hm w. split; eexists; (split; [eauto using JSON_encoded, JSONln_encoded|]).
  - rewrite written_extend, written_after_Writer, written_write. reflexivity.
  - rewrite written_extend, written_after_Writer, !written_write. reflexivity.
Qed.

(** When the encoding holds no ['%'], the bytes written are the encoding
    itself, and for [JSONln] the encoding and one newline. *)
Lemma JSON_written_no_percent ctx c obj data σ :
  heap σ !! ctx = Some c -> json_Marshal obj = inl data ->
  fmt.no_percent data = true ->
  let w := the_writer c σ in
  (exists σ', JSON ctx obj σ = Returns (ctx, σ')
              /\ written w (trace σ') = written w (trace σ) ++ data)
  /\ (exists σ', JSONln ctx obj σ = Returns (ctx, σ')
              /\ written w (trace σ') = written w (trace σ) ++ data ++ newline).
Proof.
  intros Hc Hm Hp w. pose proof (JSON_written ctx c obj data σ Hc Hm) as Hw.
  simpl in Hw. rewrite (fmt_facts.Sprintf0_no_percent data Hp) in Hw. exact Hw.
Qed.

(** C4. When the encoder fails, [JSON] returns its receiver with the world
    unchanged: nothing is handed to any writer, not even in part, no
    writer is made, and the call neither panics nor carries an error.
    [JSONIndent] does the same when its encoder fails. *)
Theorem JSON_failure_is_silent ctx obj prefix indent σ :
  (forall e, json_Marshal obj = inr e ->
     JSON ctx obj σ = Returns (ctx, σ))
  /\ (forall e, json_MarshalIndent obj prefix indent = inr e ->
     JSONIndent ctx obj prefix indent σ = Returns (ctx, σ)).
Proof.
  split; intros e He.
  - exact (JSON_failed ctx σ obj e He).
  - exact (JSONIndent_failed ctx σ obj prefix indent e He).
Qed.

(** C10. On an allocated context, each of [JSON], [JSONln], [JSONIndent]
    and [JSONIndentln] returns, and what it returns is the address it was
    called on, whether the encoder succeeds or fails. *)
Theorem JSON_family_returns_receiver ctx c obj prefix indent σ :
  heap σ !! ctx = Some c ->
  (exists σ', JSON ctx obj σ = Returns (ctx, σ'))
  /\ (exists σ', JSONln ctx obj σ = Returns (ctx, σ'))
  /\ (exists σ', JSONIndent ctx obj prefix indent σ = Returns (ctx, σ'))
  /\ (exists σ', JSONIndentln ctx obj prefix indent σ = Returns (ctx, σ')).
Proof.
  intros Hc.
  destruct (json_Marshal obj) as [data|e] eqn:Hm;
    destruct (json_MarshalIndent obj prefix indent) as [data'|e'] eqn:Hi;
    repeat split; eexists;
    eauto using JSON_encoded, JSON_failed, JSONln_encoded, JSONln_failed,
      JSONIndent_encoded, JSONIndent_failed, JSONIndentln_encoded,
      JSONIndentln_failed.
Qed.

End Output_claims.

(** ** What one step does to the world *)

Section Steps.
Context {E : Externals} {C : Collaborators}.

(** A method that returns on an allocated context leaves the world as it
    was or as [Writer] leaves it, but for calls of [Write] on the writer
    of that context that it adds to the trace. *)
Lemma invoke_effect l m c σ σ' :
  heap σ !! l = Some c ->
  invoke l m σ = Returns (tt, σ') ->
  exists (new : list event) σ0,
    (σ0 = σ \/ σ0 = after_Writer l c σ)
    /\ Forall (is_write_to (the_writer c σ)) new
    /\ heap σ' = heap σ0
    /\ colorables σ' = colorables σ0
    /\ trace σ' = (new ++ trace σ0)%list.
Proof.
  intros Hc Hrun.
  assert (Hsame : forall σ1, σ1 = σ' -> σ1 = σ ->
    exists (new : list event) σ0, (σ0 = σ \/ σ0 = after_Writer l c σ)
      /\ Forall (is_write_to (the_writer c σ)) new
      /\ heap σ' = heap σ0 /\ colorables σ' = colorables σ0
      /\ trace σ' = (new ++ trace σ0)%list).
  { intros σ1 <- ->. exists [], σ. repeat split; auto. }
  assert (Hwr : forall new, Forall (is_write_to (the_writer c σ)) new ->
    extend new (after_Writer l c σ) = σ' ->
    exists (new : list event) σ0, (σ0 = σ \/ σ0 = after_Writer l c σ)
      /\ Forall (is_write_to (the_writer c σ)) new
      /\ heap σ' = heap σ0 /\ colorables σ' = colorables σ0
      /\ trace σ' = (new ++ trace σ0)%list).
  { intros new Hnew <-. exists new, (after_Writer l c σ). repeat split; auto. }
  assert (Hw1 : forall d, Forall (is_write_to (the_writer c σ))
                            [CallWrite (the_writer c σ) d]).
  { intros d. repeat constructor. exists d. reflexivity. }
  assert (Hw2 : forall d d', Forall (is_write_to (the_writer c σ))
                 [CallWrite (the_writer c σ) d; CallWrite (the_writer c σ) d']).
  { intros d d'. repeat constructor; eexists; reflexivity. }
  destruct m; simpl in Hrun; unfold discard in Hrun; revert Hrun.
  - (* Path *)
    unfold Path, bind, ret. rewrite (load_allocated _ _ _ Hc).
    intros [= <-]. eauto.
  - unfold Router, bind, ret. rewrite (load_allocated _ _ _ Hc).
    intros [= <-]. eauto.
  - unfold NativeArgs, bind, ret. rewrite (load_allocated _ _ _ Hc).
    intros [= <-]. eauto.
  - unfold Args, bind, deref, ret, panic.
    rewrite (load_allocated _ _ _ Hc).
    destruct (ctx_flagSet c); [|discriminate]. intros [= <-]. eauto.
  - unfold NArg, bind, deref, ret, panic.
    rewrite (load_allocated _ _ _ Hc).
    destruct (ctx_flagSet c); [|discriminate]. intros [= <-]. eauto.
  - unfold Argv, bind, ret. rewrite (load_allocated _ _ _ Hc).
    intros [= <-]. eauto.
  - unfold IsSet, bind, deref, ret, panic.
    rewrite (load_allocated _ _ _ Hc).
    destruct (ctx_flagSet c) as [fs|]; [|discriminate].
    simpl. destruct (fs_flagMap fs !! flag0); simpl; intros [= <-]; eauto.
  - unfold FormValues, call_Panicf, bind, emit, deref, lift, ret, panic.
    rewrite (load_allocated _ _ _ Hc).
    destruct (ctx_flagSet c) as [fs|] eqn:Hfs.
    + rewrite (load_allocated _ _ _ Hc), Hfs. intros [= <-]. eauto.
    + destruct (debug_Panicf _); [|discriminate].
      unfold load. simpl. rewrite Hc, Hfs. discriminate.
  - unfold Command_, bind, ret. rewrite (load_allocated _ _ _ Hc).
    intros [= <-]. eauto.
  - unfold Usage, bind, lift, ret. rewrite (load_allocated _ _ _ Hc).
    destruct (Command_Usage (ctx_command c) c); [|discriminate].
    intros [= <-]. eauto.
  - (* WriteUsage *)
    intros Hrun. unfold WriteUsage in Hrun. apply bind_inv in Hrun as (u & σ1 & Hu & Hrun).
    unfold Usage, bind, lift in Hu. rewrite (load_allocated _ _ _ Hc) in Hu.
    destruct (Command_Usage (ctx_command c) c); [|discriminate].
    injection Hu as <- <-.
    rewrite (bind_returns _ _ _ _ _ (String_allocated _ _ _ _ _ Hc)) in Hrun.
    injection Hrun as <-. eauto.
  - rewrite (bind_returns _ _ _ _ _ (Writer_allocated _ _ _ Hc)).
    intros [= <-]. exists [], (after_Writer l c σ). repeat split; auto.
  - rewrite (bind_returns _ _ _ _ _ (Write_allocated _ _ _ _ Hc)).
    intros [= <-]. eauto.
  - unfold Color_, bind, ret. rewrite (load_allocated _ _ _ Hc).
    intros [= <-]. eauto.
  - rewrite (bind_returns _ _ _ _ _ (String_allocated _ _ _ _ _ Hc)).
    intros [= <-]. eauto.
  - destruct (json_Marshal obj) as [data|e] eqn:Hm.
    + rewrite (bind_returns _ _ _ _ _ (JSON_encoded _ _ _ _ _ Hc Hm)).
      intros [= <-]. eauto.
    + rewrite (bind_returns _ _ _ _ _ (JSON_failed _ _ _ _ Hm)).
      intros [= <-]. eauto.
  - destruct (json_Marshal obj) as [data|e] eqn:Hm.
    + rewrite (bind_returns _ _ _ _ _ (JSONln_encoded _ _ _ _ _ Hc Hm)).
      intros [= <-]. eauto.
    + rewrite (bind_returns _ _ _ _ _ (JSONln_failed _ _ _ _ _ Hc Hm)).
      intros [= <-]. eauto.
  - destruct (json_MarshalIndent obj prefix0 indent) as [data|e] eqn:Hm.
    + rewrite (bind_returns _ _ _ _ _ (JSONIndent_encoded _ _ _ _ _ _ _ Hc Hm)).
      intros [= <-]. eauto.
    + rewrite (bind_returns _ _ _ _ _ (JSONIndent_failed _ _ _ _ _ _ Hm)).
      intros [= <-]. eauto.
  - destruct (json_MarshalIndent obj prefix0 indent) as [data|e] eqn:Hm.
    + rewrite (bind_returns _ _ _ _ _ (JSONIndentln_encoded _ _ _ _ _ _ _ Hc Hm)).
      intros [= <-]. eauto.
    + rewrite (bind_returns _ _ _ _ _ (JSONIndentln_failed _ _ _ _ _ _ _ Hc Hm)).
      intros [= <-]. eauto.
Qed.

End Steps.

Section Evolution.
Context {E : Externals} {C : Collaborators}.

Lemma keeps_refl c : keeps c c.
Proof. unfold keeps. tauto. Qed.

Lemma keeps_trans c1 c2 c3 : keeps c1 c2 -> keeps c2 c3 -> keeps c1 c3.
Proof.
  unfold keeps. intros (? & ? & ? & ? & ? & ? & Hw1) (? & ? & ? & ? & ? & ? & Hw2).
  repeat split; try congruence. intros w Hw. apply Hw2, Hw1, Hw.
Qed.

Lemma evolves_refl σ : evolves σ σ.
Proof. intros l c Hc. exists c. split; [exact Hc | apply keeps_refl]. Qed.

Lemma evolves_trans σ1 σ2 σ3 : evolves σ1 σ2 -> evolves σ2 σ3 -> evolves σ1 σ3.
Proof.
  intros H12 H23 l c Hc. destruct (H12 l c Hc) as (c2 & Hc2 & Hk2).
  destruct (H23 l c2 Hc2) as (c3 & Hc3 & Hk3).
  exists c3. split; [exact Hc3 | eapply keeps_trans; eassumption].
Qed.

Lemma evolves_same_heap σ σ' : heap σ' = heap σ -> evolves σ σ'.
Proof. intros Hh l c Hc. exists c. rewrite Hh. split; [exact Hc | apply keeps_refl]. Qed.

(** Replacing one context by a later one of its life. *)
Lemma evolves_insert σ σ' l c c' :
  heap σ !! l = Some c -> keeps c c' ->
  heap σ' = <[l := c']> (heap σ) -> evolves σ σ'.
Proof.
  intros Hc Hk Hh l' c0 Hc0. rewrite Hh.
  destruct (decide (l = l')) as [<-|Hne].
  - exists c'. rewrite lookup_insert_eq. split; [reflexivity|]. congruence.
  - exists c0. rewrite lookup_insert_ne by exact Hne.
    split; [exact Hc0 | apply keeps_refl].
Qed.

(** Allocation leaves the contexts that exist alone. *)
Lemma evolves_fresh σ σ' c' :
  heap σ' = <[fresh (dom (heap σ)) := c']> (heap σ) -> evolves σ σ'.
Proof.
  intros Hh l c Hc. exists c. rewrite Hh. split; [|apply keeps_refl].
  rewrite lookup_insert_ne; [exact Hc|].
  intros <-. rewrite (alloc_fresh σ) in Hc. discriminate.
Qed.

Lemma evolves_after_Writer l c σ :
  heap σ !! l = Some c -> evolves σ (after_Writer l c σ).
Proof.
  intros Hc. unfold after_Writer. destruct (ctx_writer c) as [w|] eqn:Hw.
  - apply evolves_refl.
  - eapply evolves_insert; [exact Hc| |reflexivity].
    unfold keeps. simpl. rewrite Hw. repeat split; discriminate.
Qed.

Lemma load_unallocated l σ :
  heap σ !! l = None -> load l σ = Panics NilDereference.
Proof. unfold load. intros ->. reflexivity. Qed.

Lemma Writer_unallocated l σ :
  heap σ !! l = None -> Writer l σ = Panics NilDereference.
Proof.
  intros Hl. unfold Writer. apply bind_panics, load_unallocated, Hl.
Qed.

Lemma String_unallocated l format a σ :
  heap σ !! l = None -> String_ l format a σ = Panics NilDereference.
Proof.
  intros Hl. unfold String_. apply bind_panics, Writer_unallocated, Hl.
Qed.

(** On an address that holds no context, only a [JSON] or [JSONIndent]
    whose encoder fails returns, and it changes nothing. *)
Lemma invoke_unallocated l m σ σ' :
  heap σ !! l = None -> invoke l m σ = Returns (tt, σ') -> σ' = σ.
Proof.
  intros Hl.
  pose proof (load_unallocated l σ Hl) as Hload.
  pose proof (Writer_unallocated l σ Hl) as Hwriter.
  destruct m; simpl; unfold discard;
    try (unfold Path, Router, NativeArgs, Args, NArg, Argv, IsSet, FormValues,
           Command_, Usage, Color_, WriteUsage, Write, String_;
         unfold bind; rewrite ?Hload, ?Hwriter; discriminate).
  - unfold WriteUsage, Usage, bind. rewrite Hload. discriminate.
  - unfold JSON. destruct (json_Marshal obj).
    + unfold bind. rewrite Hwriter. discriminate.
    + unfold bind, ret. intros [= <-]. reflexivity.
  - unfold JSONln, JSON. destruct (json_Marshal obj).
    + unfold bind. rewrite Hwriter. discriminate.
    + unfold bind, ret. cbv beta iota.
      rewrite (String_unallocated _ _ _ _ Hl). discriminate.
  - unfold JSONIndent. destruct (json_MarshalIndent obj prefix0 indent).
    + unfold bind. rewrite Hwriter. discriminate.
    + unfold bind, ret. intros [= <-]. reflexivity.
  - unfold JSONIndentln, JSONIndent. destruct (json_MarshalIndent obj prefix0 indent).
    + unfold bind. rewrite Hwriter. discriminate.
    + unfold bind, ret. cbv beta iota.
      rewrite (String_unallocated _ _ _ _ Hl). discriminate.
Qed.

Lemma invoke_evolves l m σ σ' :
  invoke l m σ = Returns (tt, σ') -> evolves σ σ'.
Proof.
  intros Hrun. destruct (heap σ !! l) as [c|] eqn:Hc.
  - destruct (invoke_effect l m c σ σ' Hc Hrun)
      as (new & σ0 & [-> | ->] & _ & Hh & _ & _).
    + apply evolves_same_heap, Hh.
    + eapply evolves_trans; [apply evolves_after_Writer, Hc|].
      apply evolves_same_heap, Hh.
  - rewrite (invoke_unallocated l m σ σ' Hc Hrun). apply evolves_refl.
Qed.

(** What [newContext] leaves when it returns: one more context, at a
    fresh address, with a parser state; the context is returned unless
    that state carries an error. *)
Lemma newContext_inv path router args argv clr σ r σ' :
  newContext path router args argv clr σ = Returns (r, σ') ->
  exists fs,
    heap σ' = <[fresh (dom (heap σ)) :=
                 mkContext _ router path argv args (Some fs) None None clr None None]>
                (heap σ)
    /\ colorables σ' = colorables σ
    /\ r = match fs_err fs with
           | Some e => (None, Some e)
           | None => (Some (fresh (dom (heap σ))), None)
           end.
Proof.
  destruct argv as [a|].
  - destruct (parseArgv args a clr) as [fs|] eqn:Hp.
    + rewrite (newContext_parsed path router args a clr σ fs Hp).
      intros Hr. exists fs. destruct (fs_err fs); injection Hr as <- <-; auto.
    + rewrite (newContext_nil_flagSet path router args a clr σ Hp). discriminate.
  - rewrite newContext_absent. intros [= <- <-].
    eexists. split; [reflexivity|]. split; reflexivity.
Qed.

Lemma do_step_evolves s σ σ' :
  do_step s σ = Returns (tt, σ') -> evolves σ σ'.
Proof.
  destruct s as [l m|path router args argv clr|l clr]; simpl.
  - apply invoke_evolves.
  - unfold discard. intros Hrun. apply bind_inv in Hrun as (r & σ1 & Hn & Hr).
    injection Hr as <-. apply newContext_inv in Hn as (fs & Hh & _).
    eapply evolves_fresh, Hh.
  - unfold store. destruct (heap σ !! l) as [c|] eqn:Hc; [|discriminate].
    intros [= <-]. eapply evolves_insert; [exact Hc| |reflexivity].
    unfold keeps. simpl. tauto.
Qed.

(** Through any run, a context keeps the fields set at construction and
    a writer that was stored. *)
Lemma run_evolves steps σ σ' :
  run steps σ = Returns (tt, σ') -> evolves σ σ'.
Proof.
  revert σ. induction steps as [|s steps IH]; intros σ; simpl.
  - intros [= <-]. apply evolves_refl.
  - intros Hrun. apply bind_inv in Hrun as ([] & σ1 & Hs & Hrun).
    eapply evolves_trans; [eapply do_step_evolves, Hs | apply IH, Hrun].
Qed.

End Evolution.

(** ** Through the life of a context *)

Section Lifetime_claims.
Context {E : Externals} {C : Collaborators}.

(** The context that [newContext] returned. *)
Lemma newContext_returned path router args argv clr σ l σ1 :
  newContext path router args argv clr σ = Returns ((Some l, None), σ1) ->
  exists fs,
    heap σ1 !! l =
      Some (mkContext _ router path argv args (Some fs) None None clr None None).
Proof.
  intros Hn. apply newContext_inv in Hn as (fs & Hh & _ & Hr).
  exists fs. rewrite Hh. destruct (fs_err fs); [discriminate|].
  injection Hr as ->. apply lookup_insert_eq.
Qed.

(** C5, amended. When the path given to [newContext] is the router
    joined with single spaces, the context it returns stores that path
    and that router, and after any run of steps (methods on any context,
    further constructions, assignments through [Color]) it still does:
    the stored path is the stored router joined with single spaces. *)
Theorem path_is_joined_router path router args argv clr σ l σ1 :
  path = String.concat " " router ->
  newContext path router args argv clr σ = Returns ((Some l, None), σ1) ->
  forall steps σ2,
    run steps σ1 = Returns (tt, σ2) ->
    exists c,
      heap σ2 !! l = Some c
      /\ ctx_path c = path
      /\ ctx_router c = router
      /\ ctx_path c = String.concat " " (ctx_router c).
Proof.
  intros Hjoin Hn steps σ2 Hrun.
  destruct (newContext_returned _ _ _ _ _ _ _ _ Hn) as (fs & Hl).
  destruct (run_evolves steps σ1 σ2 Hrun l _ Hl) as (c & Hc & Hr & Hp & _).
  simpl in Hr, Hp. exists c. repeat split; congruence.
Qed.

(** Without a parser state, [FormValues] calls [debug.Panicf] and does not
    return: the helper panics, or else [ctx.flagSet.values] does. *)
Lemma FormValues_nil_flagSet l c σ :
  heap σ !! l = Some c -> ctx_flagSet c = None ->
  exists f, FormValues l σ = Panics f.
Proof.
  intros Hc Hfs. unfold FormValues, call_Panicf, bind, emit, deref, lift, ret, panic.
  rewrite (load_allocated _ _ _ Hc), Hfs.
  destruct (debug_Panicf _); [|eexists; reflexivity].
  unfold load. simpl. rewrite Hc, Hfs. eexists. reflexivity.
Qed.

(** C9. A context that [newContext] returned has a parser state [fs];
    after any run of steps it still has it, so [FormValues] does not
    reach its assertion: it returns the values of [fs] and leaves the
    world as it is, with no call of [debug.Panicf] on the trace. *)
Theorem FormValues_after_construction path router args argv clr σ l σ1 :
  newContext path router args argv clr σ = Returns ((Some l, None), σ1) ->
  exists fs,
    (exists c, heap σ1 !! l = Some c /\ ctx_flagSet c = Some fs)
    /\ forall steps σ2,
         run steps σ1 = Returns (tt, σ2) ->
         FormValues l σ2 = Returns (fs_values fs, σ2).
Proof.
  intros Hn. destruct (newContext_returned _ _ _ _ _ _ _ _ Hn) as (fs & Hl).
  exists fs. split; [eexists; split; [exact Hl | reflexivity]|].
  intros steps σ2 Hrun.
  destruct (run_evolves steps σ1 σ2 Hrun l _ Hl) as (c & Hc & _ & _ & _ & _ & Hfs & _).
  simpl in Hfs. unfold FormValues.
  rewrite (bind_returns _ _ _ _ _ (load_allocated _ _ _ Hc)), Hfs.
  unfold bind, ret, deref. rewrite (load_allocated _ _ _ Hc), Hfs. reflexivity.
Qed.

(** C6. On a context with no writer stored, [Writer] returns a new
    colorable writer of the standard output and stores it in the
    context.  After any run of steps, [Writer] on that context returns
    that same writer and changes nothing; [Write] and [String] hand their
    bytes to it, and every call of [Write] that any method of the context
    makes, the JSON family included, is a call on it. *)
Theorem Writer_lazy_singleton l c σ :
  heap σ !! l = Some c ->
  ctx_writer c = None ->
  let w := ColorableStdout (colorables σ) in
  exists σ1 c1,
    Writer l σ = Returns (w, σ1)
    /\ heap σ1 !! l = Some c1
    /\ ctx_writer c1 = Some w
    /\ forall steps σ2,
         run steps σ1 = Returns (tt, σ2) ->
         Writer l σ2 = Returns (w, σ2)
         /\ (forall data,
               Write l data σ2 =
                 Returns (writer_Write w data, extend [CallWrite w data] σ2))
         /\ (forall format a,
               String_ l format a σ2 =
                 Returns (l, extend [CallWrite w (Sprintf format a)] σ2))
         /\ (forall m σ3,
               invoke l m σ2 = Returns (tt, σ3) ->
               exists new : list event,
                 trace σ3 = (new ++ trace σ2)%list
                 /\ Forall (is_write_to w) new).
Proof.
  intros Hc Hw w.
  destruct (after_Writer_lookup l c σ Hc) as (c1 & Hc1 & Hw1 & _).
  assert (Hthe : the_writer c σ = w) by (unfold the_writer; rewrite Hw; reflexivity).
  rewrite Hthe in Hw1.
  exists (after_Writer l c σ), c1.
  split; [rewrite (Writer_allocated l c σ Hc), Hthe; reflexivity|].
  split; [exact Hc1|]. split; [exact Hw1|].
  intros steps σ2 Hrun.
  destruct (run_evolves steps _ σ2 Hrun l c1 Hc1) as (c2 & Hc2 & Hk).
  assert (Hw2 : ctx_writer c2 = Some w) by (apply Hk, Hw1).
  split; [exact (Writer_stored l c2 w σ2 Hc2 Hw2)|].
  split; [|split].
  - intros data. rewrite (Write_allocated l c2 σ2 data Hc2).
    rewrite (the_writer_stored c2 w σ2 Hw2), (after_Writer_stored l c2 w σ2 Hw2).
    reflexivity.
  - intros format a. rewrite (String_allocated l c2 σ2 format a Hc2).
    rewrite (the_writer_stored c2 w σ2 Hw2), (after_Writer_stored l c2 w σ2 Hw2).
    reflexivity.
  - intros m σ3 Hm.
    destruct (invoke_effect l m c2 σ2 σ3 Hc2 Hm) as (new & σ0 & Hσ0 & Hnew & _ & _ & Ht).
    rewrite (the_writer_stored c2 w σ2 Hw2) in Hnew.
    rewrite (after_Writer_stored l c2 w σ2 Hw2) in Hσ0.
    exists new. split; [|exact Hnew].
    destruct Hσ0 as [-> | ->]; exact Ht.
Qed.

End Lifetime_claims.

(** ** Runs on the sample collaborators *)

Module Sample_runs.
Import Sample.

(** The parser refuses a lone dash: no context, the error of the parser.
    It accepts [-a x]: a context whose parser state is the parser's. *)
Lemma newContext_present_argv_witness :
  (parseArgv ["-"] dest colored = Some refused
   /\ exists σ',
        newContext "hello world" ["hello"; "world"] ["-"] (Some dest) colored world0
          = Returns ((None, Some (errorString "undefined flag -")), σ')
        /\ trace σ' = [CallParseArgv ["-"] dest colored])
  /\ (parseArgv ["-a"; "x"] dest colored = Some accepted
      /\ exists l σ',
           newContext "hello world" ["hello"; "world"] ["-a"; "x"] (Some dest) colored world0
             = Returns ((Some l, None), σ')
           /\ ctx_flagSet <$> heap σ' !! l = Some (Some accepted)).
Proof.
  split; (split; [vm_compute; reflexivity|]).
  - destruct (newContext_present_argv (C:=collaborators) "hello world" ["hello"; "world"]
                ["-"] dest colored world0 refused ltac:(vm_compute; reflexivity))
      as [Hfail _].
    destruct (Hfail (errorString "undefined flag -") eq_refl) as (σ' & Hn & _ & Ht).
    exists σ'. split; [exact Hn | exact Ht].
  - destruct (newContext_present_argv (C:=collaborators) "hello world" ["hello"; "world"]
                ["-a"; "x"] dest colored world0 accepted ltac:(vm_compute; reflexivity))
      as [_ Hok].
    destruct (Hok eq_refl) as (l & σ' & Hn & Hl & _).
    exists l, σ'. split; [exact Hn|]. rewrite Hl. reflexivity.
Defined.

(** [-a] was given a value, so it is set. *)
Lemma IsSet_iff_witness :
  heap world1 !! 1%positive = Some hello
  /\ ctx_flagSet hello = Some hello_flags
  /\ IsSet 1%positive "-a" world1 = Returns (true, world1).
Proof.
  split; [vm_compute; reflexivity|]. split; [reflexivity|].
  destruct (IsSet_iff (E:=externals) 1%positive hello hello_flags "-a" world1
              ltac:(vm_compute; reflexivity) eq_refl)
    as (b & Hrun & Hiff & _).
  rewrite Hrun. f_equal. f_equal. apply Hiff.
  exists (mkFlag "1"). split; [vm_compute; reflexivity | discriminate].
Defined.

(** A channel does not encode: nothing happens. *)
Lemma JSON_failure_is_silent_witness :
  json_Marshal a_channel = inr (errorString "json: unsupported type: chan int")
  /\ JSON 1%positive a_channel world1 = Returns (1%positive, world1)
  /\ JSONIndent 1%positive a_channel "" "  " world1 = Returns (1%positive, world1).
Proof.
  split; [reflexivity|].
  destruct (JSON_failure_is_silent (C:=collaborators) 1%positive a_channel "" "  " world1) as [Hj Hi].
  split; [eapply Hj | eapply Hi]; reflexivity.
Defined.

Lemma JSON_family_returns_receiver_witness :
  heap world1 !! 1%positive = Some hello
  /\ exists σ', JSONln 1%positive a_true world1 = Returns (1%positive, σ').
Proof.
  split; [vm_compute; reflexivity|].
  exact (proj1 (proj2 (JSON_family_returns_receiver (C:=collaborators) 1%positive hello
                         a_true "" "" world1 ltac:(vm_compute; reflexivity)))).
Defined.

(** C3. The Go string [50%] encodes to the five bytes of [50%] between
    double quotes, and [JSON] hands the writer another text, in which
    the percent sign and the closing quote were read as a verb without
    operand. *)
Theorem JSON_percent_is_not_verbatim :
  exists σ',
    json_Marshal fifty_percent = inl (dquote ++ "50%" ++ dquote)
    /\ JSON 1%positive fifty_percent world1 = Returns (1%positive, σ')
    /\ written (ColorableStdout 0) (trace σ') = dquote ++ "50%!" ++ dquote ++ "(MISSING)"
    /\ written (ColorableStdout 0) (trace σ') <> dquote ++ "50%" ++ dquote.
Proof.
  eexists. split; [reflexivity|]. split; [vm_compute; reflexivity|].
  split; [vm_compute; reflexivity|]. vm_compute. discriminate.
Qed.

(** C5 as stated fails: [newContext] stores the path it is given, joined
    from the router or not. *)
Lemma newContext_path_not_joined :
  exists l σ' c,
    newContext "app" ["hello"; "world"] [] no_argv colored world0
      = Returns ((Some l, None), σ')
    /\ heap σ' !! l = Some c
    /\ ctx_path c <> String.concat " " (ctx_router c).
Proof.
  eexists _, _, _. split; [vm_compute; reflexivity|].
  split; [vm_compute; reflexivity|]. vm_compute. discriminate.
Qed.

Lemma path_is_joined_router_witness :
  "hello world" = String.concat " " ["hello"; "world"]
  /\ newContext "hello world" ["hello"; "world"] ["-a"] (Some dest) colored world0
       = Returns ((Some 1%positive, None), world_built)
  /\ run some_steps world_built = Returns (tt, world_later)
  /\ exists c,
       heap world_later !! 1%positive = Some c
       /\ ctx_path c = String.concat " " (ctx_router c).
Proof.
  split; [reflexivity|].
  assert (Hn : newContext "hello world" ["hello"; "world"] ["-a"] (Some dest) colored
                 world0 = Returns ((Some 1%positive, None), world_built))
    by (vm_compute; reflexivity).
  assert (Hr : run some_steps world_built = Returns (tt, world_later))
    by (vm_compute; reflexivity).
  split; [exact Hn|]. split; [exact Hr|].
  destruct (path_is_joined_router (C:=collaborators) "hello world" ["hello"; "world"]
              ["-a"] (Some dest) colored world0 1%positive world_built eq_refl Hn
              some_steps world_later Hr)
    as (c & Hc & _ & _ & Hj).
  exists c. split; [exact Hc | exact Hj].
Defined.

Lemma FormValues_after_construction_witness :
  newContext "hello world" ["hello"; "world"] ["-a"] (Some dest) colored world0
    = Returns ((Some 1%positive, None), world_built)
  /\ run some_steps world_built = Returns (tt, world_later)
  /\ exists fs, FormValues 1%positive world_later = Returns (fs_values fs, world_later).
Proof.
  assert (Hn : newContext "hello world" ["hello"; "world"] ["-a"] (Some dest) colored
                 world0 = Returns ((Some 1%positive, None), world_built))
    by (vm_compute; reflexivity).
  assert (Hr : run some_steps world_built = Returns (tt, world_later))
    by (vm_compute; reflexivity).
  split; [exact Hn|]. split; [exact Hr|].
  destruct (FormValues_after_construction (C:=collaborators) "hello world"
              ["hello"; "world"] ["-a"] (Some dest) colored world0 1%positive
              world_built Hn)
    as (fs & _ & Hf).
  exists fs. exact (Hf some_steps world_later Hr).
Defined.

Lemma Writer_lazy_singleton_witness :
  heap world1 !! 1%positive = Some hello
  /\ ctx_writer hello = None
  /\ exists σ1,
       Writer 1%positive world1 = Returns (ColorableStdout 0, σ1)
       /\ forall steps σ2,
            run steps σ1 = Returns (tt, σ2) ->
            Writer 1%positive σ2 = Returns (ColorableStdout 0, σ2).
Proof.
  split; [vm_compute; reflexivity|]. split; [reflexivity|].
  destruct (Writer_lazy_singleton (C:=collaborators) 1%positive hello world1
              ltac:(vm_compute; reflexivity) eq_refl)
    as (σ1 & c1 & Hw & _ & _ & Hlater).
  exists σ1. split; [exact Hw|].
  intros steps σ2 Hrun. exact (proj1 (Hlater steps σ2 Hrun)).
Defined.

End Sample_runs.

(** * Further properties of the code *)

(** ** Construction and what the accessors read back *)

Section Construction_more.
Context {E : Externals} {C : Collaborators}.

(** [newContext] adds to the trace the call of the parser, or nothing. *)
Lemma newContext_trace path router args argv clr σ r σ' :
  newContext path router args argv clr σ = Returns (r, σ') ->
  trace σ' = trace σ
  \/ exists a, argv = Some a /\ trace σ' = CallParseArgv args a clr :: trace σ.
Proof.
  destruct argv as [a|].
  - destruct (parseArgv args a clr) as [fs|] eqn:Hp.
    + rewrite (newContext_parsed path router args a clr σ fs Hp).
      intros Hr. right. exists a. split; [reflexivity|].
      destruct (fs_err fs); injection Hr as <- <-; reflexivity.
    + rewrite (newContext_nil_flagSet path router args a clr σ Hp). discriminate.
  - rewrite newContext_absent. intros [= <- <-]. left. reflexivity.
Qed.

(** X1. What was given to [newContext] is what [Path], [Router],
    [NativeArgs] and [Argv] return on the context it built, right away and
    after any run of steps; none of them changes the world. *)
Theorem accessors_read_back path router args argv clr σ l σ1 :
  newContext path router args argv clr σ = Returns ((Some l, None), σ1) ->
  forall steps σ2,
    run steps σ1 = Returns (tt, σ2) ->
    Path l σ2 = Returns (path, σ2)
    /\ Router l σ2 = Returns (router, σ2)
    /\ NativeArgs l σ2 = Returns (args, σ2)
    /\ Argv l σ2 = Returns (argv, σ2).
Proof.
  intros Hn steps σ2 Hrun.
  destruct (newContext_returned _ _ _ _ _ _ _ _ Hn) as (fs & Hl).
  destruct (run_evolves steps σ1 σ2 Hrun l _ Hl)
    as (c & Hc & Hr & Hp & Ha & Hna & _).
  simpl in Hr, Hp, Ha, Hna.
  unfold Path, Router, NativeArgs, Argv.
  rewrite !(bind_returns _ _ _ _ _ (load_allocated _ _ _ Hc)).
  unfold ret. rewrite Hr, Hp, Ha, Hna. repeat split; reflexivity.
Qed.

(** X2. When the parser answered the state [fs] and [newContext] returned
    a context, then at any later time [Args] returns the free arguments of
    [fs], [NArg] their number, and [IsSet] answers from the flag table of
    [fs]; none of them changes the world. *)
Theorem parser_state_read_back path router args (a : iface) clr σ l σ1 fs :
  parseArgv args a clr = Some fs ->
  newContext path router args (Some a) clr σ = Returns ((Some l, None), σ1) ->
  forall steps σ2,
    run steps σ1 = Returns (tt, σ2) ->
    Args l σ2 = Returns (fs_args fs, σ2)
    /\ NArg l σ2 = Returns (Z.of_nat (length (fs_args fs)), σ2)
    /\ forall name,
         IsSet l name σ2 =
           Returns (match fs_flagMap fs !! name with
                    | Some fl => negb (String.eqb (fl_actual fl) "")
                    | None => false
                    end, σ2).
Proof.
  intros Hp Hn steps σ2 Hrun.
  assert (Hl : heap σ1 !! l =
                 Some (mkContext _ router path (Some a) args (Some fs)
                         None None clr None None)).
  { rewrite (newContext_parsed path router args a clr σ fs Hp) in Hn.
    destruct (fs_err fs); [discriminate|].
    injection Hn as <- <-. apply lookup_insert_eq. }
  destruct (run_evolves steps σ1 σ2 Hrun l _ Hl)
    as (c & Hc & _ & _ & _ & _ & Hfs & _).
  simpl in Hfs. unfold Args, NArg.
  rewrite !(bind_returns _ _ _ _ _ (load_allocated _ _ _ Hc)), Hfs.
  split; [reflexivity|]. split; [reflexivity|].
  intros name. unfold IsSet.
  rewrite (bind_returns _ _ _ _ _ (load_allocated _ _ _ Hc)), Hfs.
  unfold bind, deref, ret. destruct (fs_flagMap fs !! name); reflexivity.
Qed.

(** X3. A call of [newContext] that returns leaves every context that
    existed exactly as it was, makes no writer and hands no byte to any
    writer; the context it returns is at an address that held none, and
    has no writer and no command yet. *)
Theorem newContext_frame path router args argv clr σ r σ' :
  newContext path router args argv clr σ = Returns (r, σ') ->
  (forall l c, heap σ !! l = Some c -> heap σ' !! l = Some c)
  /\ colorables σ' = colorables σ
  /\ (forall w, written w (trace σ') = written w (trace σ))
  /\ (forall l, r.1 = Some l ->
        heap σ !! l = None
        /\ exists c, heap σ' !! l = Some c
                     /\ ctx_writer c = None /\ ctx_command c = None).
Proof.
  intros Hn. pose proof (newContext_trace _ _ _ _ _ _ _ _ Hn) as Ht.
  apply newContext_inv in Hn as (fs & Hh & Hcol & Hr).
  split; [|split; [exact Hcol|split]].
  - intros l c Hc. rewrite Hh. rewrite lookup_insert_ne; [exact Hc|].
    intros <-. rewrite (alloc_fresh σ) in Hc. discriminate.
  - intros w. destruct Ht as [-> | (a & _ & ->)]; reflexivity.
  - intros l Hl. rewrite Hr in Hl. destruct (fs_err fs); [discriminate|].
    injection Hl as <-. split; [apply alloc_fresh|].
    eexists. rewrite Hh, lookup_insert_eq. split; [reflexivity|].
    split; reflexivity.
Qed.

(** X4. The first [String] on a context that [newContext] just returned
    makes a new colorable writer and hands it the formatted text in one
    call of [Write]. *)
Theorem first_write_after_construction path router args argv clr σ l σ1 format a :
  newContext path router args argv clr σ = Returns ((Some l, None), σ1) ->
  exists σ2,
    String_ l format a σ1 = Returns (l, σ2)
    /\ trace σ2 = CallWrite (ColorableStdout (colorables σ)) (Sprintf format a) :: trace σ1
    /\ colorables σ2 = S (colorables σ)
    /\ Writer l σ2 = Returns (ColorableStdout (colorables σ), σ2).
Proof.
  intros Hn. destruct (newContext_returned _ _ _ _ _ _ _ _ Hn) as (fs & Hl).
  apply newContext_inv in Hn as (_ & _ & Hcol & _).
  eexists. split; [apply (String_allocated l _ σ1 format a Hl)|].
  unfold the_writer, after_Writer, extend. simpl. rewrite Hcol.
  split; [reflexivity|]. split; [reflexivity|].
  eapply Writer_stored; simpl; [apply lookup_insert_eq | reflexivity].
Qed.

End Construction_more.

(** ** What the methods do to the world *)

Section Methods_more.
Context {E : Externals} {C : Collaborators}.

Lemma written_app w (new t : list event) :
  written w (new ++ t)%list = written w t ++ written w new.
Proof.
  induction new as [|e new IH]; simpl.
  - symmetry. apply string_app_nil_r.
  - destruct e as [args argv clr|w' data|msg]; [exact IH| |exact IH].
    rewrite IH. apply string_app_assoc.
Qed.

Lemma written_elsewhere w w' (new : list event) :
  Forall (is_write_to w) new -> w' <> w -> written w' new = "".
Proof.
  intros Hnew Hne. induction Hnew as [|e new [data ->] _ IH]; [reflexivity|].
  simpl. rewrite IH. rewrite decide_False by congruence. reflexivity.
Qed.

(** X5. The accessors ([Path], [Router], [NativeArgs], [Args], [NArg],
    [Argv], [IsSet], [FormValues], [Command], [Usage], [Color]) change
    nothing when they return: they make no writer and call nothing that is
    recorded. *)
Theorem accessors_change_nothing l m σ σ' :
  read_only m = true ->
  invoke l m σ = Returns (tt, σ') ->
  σ' = σ.
Proof.
  intros Hro Hrun. destruct (heap σ !! l) as [c|] eqn:Hc.
  2:{ exact (invoke_unallocated l m σ σ' Hc Hrun). }
  revert Hrun.
  destruct m; try discriminate Hro; simpl; unfold discard.
  - unfold Path, bind, ret. rewrite (load_allocated _ _ _ Hc). intros [= <-]. reflexivity.
  - unfold Router, bind, ret. rewrite (load_allocated _ _ _ Hc). intros [= <-]. reflexivity.
  - unfold NativeArgs, bind, ret. rewrite (load_allocated _ _ _ Hc).
    intros [= <-]. reflexivity.
  - unfold Args, bind, deref, ret, panic. rewrite (load_allocated _ _ _ Hc).
    destruct (ctx_flagSet c); [|discriminate]. intros [= <-]. reflexivity.
  - unfold NArg, bind, deref, ret, panic. rewrite (load_allocated _ _ _ Hc).
    destruct (ctx_flagSet c); [|discriminate]. intros [= <-]. reflexivity.
  - unfold Argv, bind, ret. rewrite (load_allocated _ _ _ Hc). intros [= <-]. reflexivity.
  - unfold IsSet, bind, deref, ret, panic. rewrite (load_allocated _ _ _ Hc).
    destruct (ctx_flagSet c) as [fs|]; [|discriminate]. simpl.
    destruct (fs_flagMap fs !! flag0); simpl; intros [= <-]; reflexivity.
  - unfold FormValues, call_Panicf, bind, emit, deref, lift, ret, panic.
    rewrite (load_allocated _ _ _ Hc).
    destruct (ctx_flagSet c) as [fs|] eqn:Hfs.
    + rewrite (load_allocated _ _ _ Hc), Hfs. intros [= <-]. reflexivity.
    + destruct (debug_Panicf _); [|discriminate].
      unfold load. simpl. rewrite Hc, Hfs. discriminate.
  - unfold Command_, bind, ret. rewrite (load_allocated _ _ _ Hc).
    intros [= <-]. reflexivity.
  - unfold Usage, bind, lift, ret. rewrite (load_allocated _ _ _ Hc).
    destruct (Command_Usage (ctx_command c) c); [|discriminate].
    intros [= <-]. reflexivity.
  - unfold Color_, bind, ret. rewrite (load_allocated _ _ _ Hc). intros [= <-]. reflexivity.
Qed.

(** X6. A method of a context hands bytes to the writer of that context
    and to no other: what any other writer received is unchanged. *)
Theorem methods_write_to_own_writer_only l m c σ σ' w' :
  heap σ !! l = Some c ->
  invoke l m σ = Returns (tt, σ') ->
  w' <> the_writer c σ ->
  written w' (trace σ') = written w' (trace σ).
Proof.
  intros Hc Hrun Hne.
  destruct (invoke_effect l m c σ σ' Hc Hrun) as (new & σ0 & Hσ0 & Hnew & _ & _ & Ht).
  rewrite Ht, written_app, (written_elsewhere _ _ _ Hnew Hne), string_app_nil_r.
  destruct Hσ0 as [-> | ->]; [reflexivity|]. apply written_after_Writer.
Qed.

(** One method on a context: the writer field is as before and no writer
    was made, or it was nil, one colorable writer was made and stored. *)
Lemma invoke_writer_field l m c σ σ' :
  heap σ !! l = Some c ->
  invoke l m σ = Returns (tt, σ') ->
  exists c',
    heap σ' !! l = Some c'
    /\ ((ctx_writer c' = ctx_writer c /\ colorables σ' = colorables σ)
        \/ (ctx_writer c = None
            /\ ctx_writer c' = Some (ColorableStdout (colorables σ))
            /\ colorables σ' = S (colorables σ))).
Proof.
  intros Hc Hrun.
  destruct (invoke_effect l m c σ σ' Hc Hrun) as (new & σ0 & Hσ0 & _ & Hh & Hcol & _).
  destruct Hσ0 as [-> | ->].
  - exists c. rewrite Hh. split; [exact Hc|]. left. split; [reflexivity | exact Hcol].
  - rewrite Hh, Hcol. unfold after_Writer. destruct (ctx_writer c) as [w|] eqn:Hw.
    + exists c. split; [exact Hc|]. left. split; [exact Hw | reflexivity].
    + eexists. simpl. rewrite lookup_insert_eq. split; [reflexivity|].
      right. simpl. repeat split; reflexivity.
Qed.

(** X7. However many methods run on one context, at most one colorable
    writer is made for it, and none if a writer was already stored. *)
Theorem one_colorable_writer_per_context l steps c σ σ' :
  heap σ !! l = Some c ->
  Forall (fun s => exists m, s = Invoke l m) steps ->
  run steps σ = Returns (tt, σ') ->
  colorables σ' <= S (colorables σ)
  /\ (forall w, ctx_writer c = Some w -> colorables σ' = colorables σ).
Proof.
  intros Hc Hsteps. revert c σ Hc.
  induction Hsteps as [|s steps [m ->] _ IH]; intros c σ Hc; simpl.
  - intros [= <-]. split; [lia | reflexivity].
  - intros Hrun. apply bind_inv in Hrun as ([] & σ1 & Hm & Hrun).
    destruct (invoke_writer_field l m c σ σ1 Hc Hm) as (c1 & Hc1 & Hcase).
    destruct (IH c1 σ1 Hc1 Hrun) as [Hle Hset].
    destruct Hcase as [[Hw Hcol] | (Hnone & Hw & Hcol)].
    + rewrite <- Hcol. split; [exact Hle|].
      intros w Hcw. apply (Hset w). rewrite Hw. exact Hcw.
    + rewrite (Hset _ Hw), Hcol. split; [lia|].
      intros w Hcw. rewrite Hnone in Hcw. discriminate.
Qed.

(** X8. [String] returns its receiver, so calls chain; the texts of a
    chain reach the one writer of the context in the order of the calls. *)
Theorem String_chain l c σ f1 a1 f2 a2 :
  heap σ !! l = Some c ->
  let w := the_writer c σ in
  exists σ',
    (r <- String_ l f1 a1 ;; String_ r f2 a2) σ = Returns (l, σ')
    /\ written w (trace σ') = written w (trace σ) ++ Sprintf f1 a1 ++ Sprintf f2 a2.
Proof.
  intros Hc w. eexists. split.
  - rewrite (bind_returns _ _ _ _ _ (String_allocated l c σ f1 a1 Hc)).
    apply String_again, Hc.
  - rewrite written_extend, written_after_Writer, !written_write. reflexivity.
Qed.

(** X9. When the encoder fails, [JSONln] and [JSONIndentln] still write:
    the writer of the context receives one newline and nothing else. *)
Theorem JSONln_failure_writes_newline l c σ obj prefix indent :
  heap σ !! l = Some c ->
  let w := the_writer c σ in
  (forall e, json_Marshal obj = inr e ->
     exists σ', JSONln l obj σ = Returns (l, σ')
                /\ written w (trace σ') = written w (trace σ) ++ newline)
  /\ (forall e, json_MarshalIndent obj prefix indent = inr e ->
     exists σ', JSONIndentln l obj prefix indent σ = Returns (l, σ')
                /\ written w (trace σ') = written w (trace σ) ++ newline).
Proof.
  intros Hc w. split; intros e He; eexists;
    (split; [eauto using JSONln_failed, JSONIndentln_failed|]);
    rewrite written_extend, written_after_Writer, written_write; reflexivity.
Qed.

(** X10. When the indented encoding holds no ['%'], [JSONIndent] writes
    that encoding as it is, and [JSONIndentln] the encoding and one
    newline. *)
Theorem JSONIndent_written_no_percent l c obj prefix indent data σ :
  heap σ !! l = Some c ->
  json_MarshalIndent obj prefix indent = inl data ->
  fmt.no_percent data = true ->
  let w := the_writer c σ in
  (exists σ', JSONIndent l obj prefix indent σ = Returns (l, σ')
              /\ written w (trace σ') = written w (trace σ) ++ data)
  /\ (exists σ', JSONIndentln l obj prefix indent σ = Returns (l, σ')
              /\ written w (trace σ') = written w (trace σ) ++ data ++ newline).
Proof.
  intros Hc Hm Hp w. split; eexists;
    (split; [eauto using JSONIndent_encoded, JSONIndentln_encoded|]);
    rewrite written_extend, written_after_Writer, !written_write;
    rewrite (fmt_facts.Sprintf0_no_percent data Hp); reflexivity.
Qed.

(** X11. [WriteUsage] hands the usage text of the command to [Fprintf] as
    the format: the writer of the context receives what [Fprintf] makes of
    it, which is the text itself when it holds no ['%']; when the renderer
    panics, so does [WriteUsage]. *)
Theorem WriteUsage_writes_usage l c σ :
  heap σ !! l = Some c ->
  let w := the_writer c σ in
  match Command_Usage (ctx_command c) c with
  | Returns u =>
      exists σ',
        WriteUsage l σ = Returns (tt, σ')
        /\ written w (trace σ') = written w (trace σ) ++ fmt.Sprintf0 u
        /\ (fmt.no_percent u = true ->
            written w (trace σ') = written w (trace σ) ++ u)
  | Panics f => WriteUsage l σ = Panics f
  end.
Proof.
  intros Hc w. unfold WriteUsage, Usage.
  destruct (Command_Usage (ctx_command c) c) as [u|f] eqn:Hu.
  - eexists. split.
    + unfold bind at 1 2. rewrite (load_allocated _ _ _ Hc). unfold lift.
      rewrite Hu. rewrite (bind_returns _ _ _ _ _ (String_allocated l c σ u [] Hc)).
      reflexivity.
    + rewrite written_extend, written_after_Writer, written_write.
      split; [reflexivity|]. intros Hp. simpl.
      rewrite (fmt_facts.Sprintf0_no_percent u Hp). reflexivity.
  - unfold bind. rewrite (load_allocated _ _ _ Hc). unfold lift. rewrite Hu.
    reflexivity.
Qed.

(** X12. [Write] hands its bytes to the writer of the context in one call,
    as they are (a ['%'] is a byte like another), and returns what that
    call answered. *)
Theorem Write_passes_through l c σ data :
  heap σ !! l = Some c ->
  let w := the_writer c σ in
  exists σ',
    Write l data σ = Returns (writer_Write w data, σ')
    /\ trace σ' = CallWrite w data :: trace σ
    /\ written w (trace σ') = written w (trace σ) ++ data.
Proof.
  intros Hc w. eexists. split; [apply (Write_allocated l c σ data Hc)|].
  split.
  - unfold extend, after_Writer. destruct (ctx_writer c); reflexivity.
  - rewrite written_extend, written_after_Writer, written_write. reflexivity.
Qed.

(** X13. On a context with no parser state, [FormValues] does not return:
    it panics as [debug.Panicf] does, and when that helper returns, at the
    read of [ctx.flagSet.values]. *)
Theorem FormValues_without_flagSet l c σ :
  heap σ !! l = Some c ->
  ctx_flagSet c = None ->
  FormValues l σ =
    match debug_Panicf "ctx.flagSet == nil" with
    | Panics f => Panics f
    | Returns _ => Panics NilDereference
    end.
Proof.
  intros Hc Hfs. unfold FormValues, call_Panicf, bind, emit, deref, lift, ret, panic.
  rewrite (load_allocated _ _ _ Hc), Hfs.
  destruct (debug_Panicf _); [|reflexivity].
  unfold load. simpl. rewrite Hc, Hfs. reflexivity.
Qed.

End Methods_more.

(** ** The nil receiver *)

Section Nil_receiver.
Context {E : Externals} {C : Collaborators}.


End Nil_receiver.

(** ** Further runs on the sample collaborators *)

Module Sample_more.
Import Sample.

Lemma built_by_newContext :
  newContext "hello world" ["hello"; "world"] ["-a"] (Some dest) colored world0
    = Returns ((Some 1%positive, None), world_built).
Proof. vm_compute. reflexivity. Qed.

Lemma later_by_run : run some_steps world_built = Returns (tt, world_later).
Proof. vm_compute. reflexivity. Qed.

Lemma hello_allocated : heap world1 !! 1%positive = Some hello.
Proof. vm_compute. reflexivity. Qed.

Lemma accessors_read_back_witness :
  newContext "hello world" ["hello"; "world"] ["-a"] (Some dest) colored world0
    = Returns ((Some 1%positive, None), world_built)
  /\ run some_steps world_built = Returns (tt, world_later)
  /\ Path 1%positive world_later = Returns ("hello world", world_later)
  /\ Router 1%positive world_later = Returns (["hello"; "world"], world_later).
Proof.
  split; [exact built_by_newContext|]. split; [exact later_by_run|].
  destruct (accessors_read_back (C:=collaborators) "hello world" ["hello"; "world"]
              ["-a"] (Some dest) colored world0 1%positive world_built
              built_by_newContext some_steps world_later later_by_run)
    as (Hp & Hr & _).
  split; [exact Hp | exact Hr].
Defined.

Lemma parser_state_read_back_witness :
  parseArgv ["-a"; "x"] dest colored = Some accepted
  /\ exists σ1,
       newContext "hello world" ["hello"; "world"] ["-a"; "x"] (Some dest) colored world0
         = Returns ((Some 1%positive, None), σ1)
       /\ Args 1%positive σ1 = Returns (["x"], σ1)
       /\ IsSet 1%positive "-a" σ1 = Returns (true, σ1)
       /\ IsSet 1%positive "-z" σ1 = Returns (false, σ1).
Proof.
  split; [vm_compute; reflexivity|].
  eexists. split; [vm_compute; reflexivity|].
  destruct (parser_state_read_back (C:=collaborators) "hello world" ["hello"; "world"]
              ["-a"; "x"] dest colored world0 1%positive _ accepted
              ltac:(vm_compute; reflexivity) ltac:(vm_compute; reflexivity)
              [] _ eq_refl)
    as (Ha & _ & Hs).
  split; [exact Ha|]. split; [exact (Hs "-a") | exact (Hs "-z")].
Defined.

Lemma newContext_frame_witness :
  exists σ',
    newContext "x" ["x"] [] no_argv plain_output world1 = Returns ((Some 2%positive, None), σ')
    /\ heap σ' !! 1%positive = Some hello
    /\ colorables σ' = 0.
Proof.
  eexists. split; [vm_compute; reflexivity|].
  destruct (newContext_frame (C:=collaborators) "x" ["x"] [] no_argv plain_output world1
              _ _ ltac:(vm_compute; reflexivity))
    as (Hold & Hcol & _).
  split; [exact (Hold 1%positive hello hello_allocated) | exact Hcol].
Defined.

Lemma first_write_after_construction_witness :
  newContext "hello world" ["hello"; "world"] ["-a"] (Some dest) colored world0
    = Returns ((Some 1%positive, None), world_built)
  /\ exists σ2,
       String_ 1%positive "abc" [] world_built = Returns (1%positive, σ2)
       /\ trace σ2 = CallWrite (ColorableStdout 0) "abc" :: trace world_built.
Proof.
  split; [exact built_by_newContext|].
  destruct (first_write_after_construction (C:=collaborators) "hello world"
              ["hello"; "world"] ["-a"] (Some dest) colored world0 1%positive
              world_built "abc" [] built_by_newContext)
    as (σ2 & Hs & Ht & _).
  exists σ2. split; [exact Hs | exact Ht].
Defined.

Lemma accessors_change_nothing_witness :
  read_only (mIsSet "-a") = true
  /\ exists σ',
       invoke 1%positive (mIsSet "-a") world1 = Returns (tt, σ')
       /\ σ' = world1.
Proof.
  split; [reflexivity|].
  eexists. split; [vm_compute; reflexivity|].
  refine (accessors_change_nothing (C:=collaborators) 1%positive (mIsSet "-a") world1 _
            eq_refl _).
  vm_compute. reflexivity.
Defined.

Lemma methods_write_to_own_writer_only_witness :
  heap world1 !! 1%positive = Some hello
  /\ OtherWriter 7 <> the_writer hello world1
  /\ exists σ',
       invoke 1%positive (mJSONln a_true) world1 = Returns (tt, σ')
       /\ written (OtherWriter 7) (trace σ') = "".
Proof.
  split; [exact hello_allocated|]. split; [discriminate|].
  eexists. split; [vm_compute; reflexivity|].
  exact (methods_write_to_own_writer_only (C:=collaborators) 1%positive (mJSONln a_true)
           hello world1 _ (OtherWriter 7) hello_allocated
           ltac:(vm_compute; reflexivity) ltac:(discriminate)).
Defined.

Lemma one_colorable_writer_per_context_witness :
  heap world1 !! 1%positive = Some hello
  /\ Forall (fun s => exists m, s = Invoke 1%positive m) own_steps
  /\ exists σ',
       run own_steps world1 = Returns (tt, σ')
       /\ colorables σ' <= 1.
Proof.
  assert (Hown : Forall (fun s => exists m, s = Invoke 1%positive m) own_steps)
    by (repeat constructor; eexists; reflexivity).
  split; [exact hello_allocated|]. split; [exact Hown|].
  eexists. split; [vm_compute; reflexivity|].
  exact (proj1 (one_colorable_writer_per_context (C:=collaborators) 1%positive own_steps
                  hello world1 _ hello_allocated Hown ltac:(vm_compute; reflexivity))).
Defined.

Lemma String_chain_witness :
  heap world1 !! 1%positive = Some hello
  /\ exists σ',
       (r <- String_ 1%positive "abc" [] ;; String_ r "def" []) world1
         = Returns (1%positive, σ')
       /\ written (ColorableStdout 0) (trace σ') = "abcdef".
Proof.
  split; [exact hello_allocated|].
  destruct (String_chain (C:=collaborators) 1%positive hello world1 "abc" [] "def" []
              hello_allocated)
    as (σ' & Hrun & Hw).
  exists σ'. split; [exact Hrun | exact Hw].
Defined.

Lemma JSONln_failure_writes_newline_witness :
  heap world1 !! 1%positive = Some hello
  /\ json_Marshal a_channel = inr (errorString "json: unsupported type: chan int")
  /\ exists σ',
       JSONln 1%positive a_channel world1 = Returns (1%positive, σ')
       /\ written (ColorableStdout 0) (trace σ') = newline.
Proof.
  split; [exact hello_allocated|]. split; [reflexivity|].
  destruct (JSONln_failure_writes_newline (C:=collaborators) 1%positive hello world1
              a_channel "" "" hello_allocated)
    as [Hln _].
  destruct (Hln _ eq_refl) as (σ' & Hrun & Hw).
  exists σ'. split; [exact Hrun | exact Hw].
Defined.

Lemma JSONIndent_written_no_percent_witness :
  heap world1 !! 1%positive = Some hello
  /\ json_MarshalIndent a_true "" "  " = inl "true"
  /\ fmt.no_percent "true" = true
  /\ exists σ',
       JSONIndentln 1%positive a_true "" "  " world1 = Returns (1%positive, σ')
       /\ written (ColorableStdout 0) (trace σ') = "true" ++ newline.
Proof.
  split; [exact hello_allocated|]. split; [reflexivity|]. split; [reflexivity|].
  destruct (JSONIndent_written_no_percent (C:=collaborators) 1%positive hello a_true
              "" "  " "true" world1 hello_allocated eq_refl eq_refl)
    as [_ (σ' & Hrun & Hw)].
  exists σ'. split; [exact Hrun | exact Hw].
Defined.

Lemma WriteUsage_writes_usage_witness :
  heap world1 !! 1%positive = Some hello
  /\ exists σ',
       WriteUsage 1%positive world1 = Returns (tt, σ')
       /\ written (ColorableStdout 0) (trace σ') = "usage".
Proof.
  split; [exact hello_allocated|].
  destruct (WriteUsage_writes_usage (C:=collaborators) 1%positive hello world1
              hello_allocated)
    as (σ' & Hrun & _ & Hw).
  exists σ'. split; [exact Hrun | exact (Hw eq_refl)].
Defined.

Lemma Write_passes_through_witness :
  heap world1 !! 1%positive = Some hello
  /\ exists σ',
       Write 1%positive "100%" world1 = Returns ((4%Z, None), σ')
       /\ written (ColorableStdout 0) (trace σ') = "100%".
Proof.
  split; [exact hello_allocated|].
  destruct (Write_passes_through (C:=collaborators) 1%positive hello world1 "100%"
              hello_allocated)
    as (σ' & Hrun & _ & Hw).
  exists σ'. split; [exact Hrun | exact Hw].
Defined.

Lemma FormValues_without_flagSet_witness :
  heap world_zero !! 1%positive = Some zero_context
  /\ ctx_flagSet zero_context = None
  /\ FormValues 1%positive world_zero = Panics (Fatal "ctx.flagSet == nil").
Proof.
  split; [vm_compute; reflexivity|]. split; [reflexivity|].
  exact (FormValues_without_flagSet (C:=collaborators) 1%positive zero_context world_zero
           ltac:(vm_compute; reflexivity) eq_refl).
Defined.


End Sample_more.
